(** * A4988 stepper-motor controller: the two MicroPython variants

    The repository holds two near-duplicate scripts, [src/StepperMotor.py]
    and [src/BlinkLed.py], each defining a class [StepperMotor].  Both are
    embedded here, method by method, as computations of a small
    state-and-exception monad over

    - the instance dictionary of the controller object ([obj]),
    - the sequence of calls made to the [machine] module ([hw]),
    - the lines written by [print] ([console]).

    The arguments of the methods ([rpm], [steps], the divider, the pin
    numbers) are Python integers, as in every call the repository makes,
    and are [Z] here.  The one true division of the program,
    [(rpm * steps_per_revolution) / 60], is taken in the rationals [Q]: on
    integers that a double represents exactly, the comparison and the
    truncation the program applies to the quotient agree with the exact
    ones.

    The [machine] module is not part of the repository.  It is taken as
    the pin and pulse-generator capability the controller consumes: every
    call is accepted and recorded, a pin object may stand where a pin
    number is expected, and no port-specific check of an argument (the
    sign or the type of a frequency, say) is modelled. *)

From Stdlib Require Import ZArith QArith Lia.
From stdpp Require Import gmap strings list fin_maps.

Local Open Scope Z_scope.

(** ** Values, hardware calls, console lines *)

(** The Python values the controller stores in its attributes. *)
Inductive value :=
  | VNone
  | VInt (n : Z)
  | VFloat (q : Q)
  | VPin (id : Z).   (* a [machine.Pin] object, identified by its GPIO number *)

Inductive pin_mode := IN | OUT.
Inductive pin_pull := PULL_UP.

(** One call into the [machine] module. *)
Inductive hw_event :=
  | PinInit (id : Z) (mode : option pin_mode) (pull : option pin_pull)
      (* Pin(id), Pin(id, mode), Pin(id, mode, pull) *)
  | PinValue (id : Z) (x : Z)               (* pin.value(x) *)
  | PwmInit (id : Z) (duty_u16 : option Z)  (* PWM(pin), PWM(pin, duty_u16=d) *)
  | PwmDuty (id : Z) (d : Z)                (* pwm.duty(d) *)
  | PwmFreq (id : Z) (f : value).           (* pwm.freq(f) *)

(** One line written by [print]; the formatted fields are kept as data. *)
Inductive message :=
  | MsgPinsNotDeclared                       (* ERROR: Pins not fully declared *)
  | MsgMotorEnabled                          (* Motor enabled *)
  | MsgMotorDisabled                         (* Motor disabled *)
  | MsgDirectionReversed                     (* Motor direction reversed *)
  | MsgInvalidMicrostep (d : Z)              (* Error: stepDivider d is not a valid quantity *)
  | MsgMicrostepSet (d : Z)                  (* Microstepping set to d. ... *)
  | MsgMoved (steps : Z) (position : value)  (* Motor moved s steps. New position: p *)
  | MsgSpeedExceeds (rpm : Z) (max : value)  (* Error: Speed r RPM exceeds max speed (m rotations/min) *)
  | MsgSpeedSet (rpm : Z) (speed : value)    (* Speed set to r RPM (s steps per second) *)
  | MsgNoHomingPin                           (* Error: No homing pin configured. *)
  | MsgHoming (pin : value)                  (* Homing motor using pin p... *)
  | MsgHomed.                                (* Motor homed successfully. *)

Record world := World {
  obj : gmap string value;
  hw : list hw_event;
  console : list message
}.

(** ** Exceptions and the monad *)

Inductive exn :=
  | SystemExit (code : Z)          (* raised by sys.exit: ends the process *)
  | AttributeError (name : string) (* read of an attribute that was never set *)
  | TypeError.

Inductive outcome (A : Type) :=
  | Return (a : A)
  | Raise (e : exn).
Arguments Return {A} a.
Arguments Raise {A} e.

Definition M (A : Type) : Type := world → outcome A * world.

#[global] Instance M_ret : MRet M := λ A a w, (Return a, w).
#[global] Instance M_bind : MBind M := λ A B f m w,
  match m w with
  | (Return a, w') => f a w'
  | (Raise e, w') => (Raise e, w')
  end.

Definition raise {A} (e : exn) : M A := λ w, (Raise e, w).

Definition getattr (name : string) : M value := λ w,
  match obj w !! name with
  | Some v => (Return v, w)
  | None => (Raise (AttributeError name), w)
  end.

Definition setattr (name : string) (v : value) : M unit := λ w,
  (Return (), World (<[name := v]> (obj w)) (hw w) (console w)).

Definition emit (e : hw_event) : M unit := λ w,
  (Return (), World (obj w) (hw w ++ [e]) (console w)).

Definition print (m : message) : M unit := λ w,
  (Return (), World (obj w) (hw w) (console w ++ [m])).

Definition sys_exit {A} (code : Z) : M A := raise (SystemExit code).

(** [for _ in range(n): body] *)
Fixpoint for_range (n : nat) (body : M unit) : M unit :=
  match n with
  | O => mret ()
  | S k => body ;; for_range k body
  end.

(** ** Python operations on values *)

Definition as_int (v : value) : M Z :=
  match v with
  | VInt n => mret n
  | _ => raise TypeError
  end.

Definition as_num (v : value) : M Q :=
  match v with
  | VInt n => mret (inject_Z n)
  | VFloat q => mret q
  | _ => raise TypeError
  end.

(** [a / b] on two ints. *)
Definition truediv (a b : Z) : Q := (inject_Z a / inject_Z b)%Q.

(** [x > y] on two numbers. *)
Definition gt (x y : Q) : bool := negb (Qle_bool x y).

(** [int(x)]: truncation towards zero. *)
Definition int (v : value) : M Z :=
  match v with
  | VInt n => mret n
  | VFloat q => mret (Z.quot (Qnum q) (Z.pos (Qden q)))
  | _ => raise TypeError
  end.

(** ** The [machine] module *)

(** The GPIO number behind the first argument of [Pin(...)]: a number, or
    a pin object that is passed through. *)
Definition pin_id (v : value) : M Z :=
  match v with
  | VInt n => mret n
  | VPin n => mret n
  | _ => raise TypeError
  end.

(** [Pin(id, mode, pull)], returning the pin object (its GPIO number). *)
Definition Pin (id : value) (mode : option pin_mode) (pull : option pin_pull) : M Z :=
  n ← pin_id id; emit (PinInit n mode pull);; mret n.

(** [p.value(x)] on a pin object. *)
Definition Pin_value (p : Z) (x : Z) : M unit := emit (PinValue p x).

(** [v.value(x)] on an attribute: only a pin object has the method. *)
Definition value_method (v : value) (x : Z) : M unit :=
  match v with
  | VPin p => Pin_value p x
  | _ => raise (AttributeError "value")
  end.

(** [PWM(pin)] and [PWM(pin, duty_u16=d)]. *)
Definition PWM (p : Z) (duty_u16 : option Z) : M Z :=
  emit (PwmInit p duty_u16);; mret p.

Definition PWM_duty (p : Z) (d : Z) : M unit := emit (PwmDuty p d).
Definition PWM_freq (p : Z) (f : value) : M unit := emit (PwmFreq p f).

(** What the hardware calls leave on a pin: the level last written to it
    (any non-zero argument of [value] drives it high), and the mode it was
    last configured with. *)
Definition level_of_arg (x : Z) : Z := if x =? 0 then 0 else 1.

Fixpoint pin_level (id : Z) (tr : list hw_event) : option Z :=
  match tr with
  | [] => None
  | e :: tr' =>
      match pin_level id tr', e with
      | Some l, _ => Some l
      | None, PinValue i x => if i =? id then Some (level_of_arg x) else None
      | None, _ => None
      end
  end.

Fixpoint pin_config (id : Z) (tr : list hw_event) : option (pin_mode * option pin_pull) :=
  match tr with
  | [] => None
  | e :: tr' =>
      match pin_config id tr', e with
      | Some c, _ => Some c
      | None, PinInit i (Some m) p => if i =? id then Some (m, p) else None
      | None, _ => None
      end
  end.

(** The microstep dividers the A4988 supports (class attribute). *)
Definition VALID_MICROSTEPS : gset Z := {[1; 2; 4; 8; 16]}.

(** A fresh instance: no attribute set, nothing done yet. *)
Definition fresh : world := World ∅ [] [].

(** The optional constructor arguments: [None] is Python's [None]. *)
Definition arg (a : option Z) : value :=
  match a with
  | Some n => VInt n
  | None => VNone
  end.

Definition is_None (v : value) : bool :=
  match v with
  | VNone => true
  | _ => false
  end.

(** ** src/StepperMotor.py *)

Module StepperMotor.

Definition __init__ (homingPin stepPin dirPin disablePin : option Z) : M unit :=
  (if is_None (arg stepPin) || is_None (arg dirPin) || is_None (arg disablePin)
   then print MsgPinsNotDeclared;; sys_exit 1
   else mret ());;
  setattr "currentPosition" VNone;;
  setattr "currentSpeed" VNone;;
  setattr "stepPin" (arg stepPin);;
  setattr "dirPin" (arg dirPin);;
  setattr "disablePin" (arg disablePin);;
  setattr "homingPin" (arg homingPin);;
  setattr "stepDivider" (VInt 1);;
  setattr "MAX_RPM" (VInt 600);;
  setattr "direction" (VInt 1);;
  sp ← getattr "stepPin"; p ← Pin sp (Some OUT) None; Pin_value p 0;;
  dp ← getattr "dirPin"; p ← Pin dp (Some OUT) None; Pin_value p 0;;
  xp ← getattr "disablePin"; p ← Pin xp (Some OUT) None; Pin_value p 1;;
  hp ← getattr "homingPin";
  if is_None hp then mret ()
  else (hp ← getattr "homingPin"; Pin hp (Some IN) (Some PULL_UP);; mret ()).

Definition enableMotor : M unit :=
  xp ← getattr "disablePin"; p ← Pin xp (Some OUT) None; Pin_value p 0;;
  print MsgMotorEnabled.

Definition disableMotor : M unit :=
  xp ← getattr "disablePin"; p ← Pin xp (Some OUT) None; Pin_value p 1;;
  print MsgMotorDisabled.

Definition reverseDirections : M unit :=
  d ← getattr "direction"; d ← as_int d;
  setattr "direction" (VInt (- d));;
  print MsgDirectionReversed.

Definition setMicroStep (stepDivider : Z) : M unit :=
  (if bool_decide (stepDivider ∉ VALID_MICROSTEPS)
   then print (MsgInvalidMicrostep stepDivider);; sys_exit 1
   else mret ());;
  setattr "stepDivider" (VInt stepDivider);;
  print (MsgMicrostepSet stepDivider).

(** The body of the loop of [moveSteps]: one step pulse. *)
Definition pulse : M unit :=
  sp ← getattr "stepPin"; p ← Pin sp (Some OUT) None; Pin_value p 1;;
  sp ← getattr "stepPin"; p ← Pin sp (Some OUT) None; Pin_value p 0.

Definition moveSteps (steps : Z) : M unit :=
  for_range (Z.to_nat (Z.abs steps)) pulse;;
  pos ← getattr "position";
  print (MsgMoved steps pos).

Definition setSpeed (rpm : Z) : M unit :=
  d ← getattr "stepDivider"; d ← as_int d;
  let steps_per_revolution := 200 * d in
  setattr "speed" (VFloat (truediv (rpm * steps_per_revolution) 60));;
  s ← getattr "speed"; s ← as_num s;
  mx ← getattr "MAX_RPM"; mx ← as_int mx;
  (if gt s (truediv (mx * steps_per_revolution) 60)
   then (mxv ← getattr "MAX_RPM"; print (MsgSpeedExceeds rpm mxv));; sys_exit 1
   else mret ());;
  sp ← getattr "stepPin"; p ← Pin sp None None; pwm ← PWM p None;
  PWM_duty pwm 512;;
  s ← getattr "speed"; PWM_freq pwm s;;
  dir ← getattr "direction"; dir ← as_int dir;
  (if rpm * dir <? 0
   then (dp ← getattr "dirPin"; p ← Pin dp (Some OUT) None; Pin_value p 1)
   else (dp ← getattr "dirPin"; p ← Pin dp (Some OUT) None; Pin_value p 0));;
  setattr "currentSpeed" (VInt rpm);;
  s ← getattr "speed";
  print (MsgSpeedSet rpm s).

Definition homeMotorReverse (speed : Z) : M unit :=
  hp ← getattr "homingPin";
  if is_None hp then print MsgNoHomingPin
  else
    hp ← getattr "homingPin"; print (MsgHoming hp);;
    setSpeed speed;;
    setattr "position" (VInt 0);;
    print MsgHomed.

Definition homeMotorForward (speed : Z) : M unit :=
  hp ← getattr "homingPin";
  if is_None hp then print MsgNoHomingPin
  else
    hp ← getattr "homingPin"; print (MsgHoming hp);;
    setattr "position" (VInt 0);;
    print MsgHomed.

(** The default arguments of the two homing methods. *)
Definition homeMotorReverse_default : Z := -60.
Definition homeMotorForward_default : Z := 60.

End StepperMotor.

(** ** src/BlinkLed.py *)

Module BlinkLed.

Definition __init__ (stepPin dirPin disablePin homingPin counterPin : option Z) : M unit :=
  (if is_None (arg stepPin) || is_None (arg dirPin) || is_None (arg disablePin)
   then print MsgPinsNotDeclared;; sys_exit 1
   else mret ());;
  setattr "currentPosition" VNone;;
  setattr "currentSpeed" VNone;;
  setattr "homingPin" (arg homingPin);;
  setattr "stepDivider" (VInt 1);;
  setattr "MAX_RPM" (VInt 600);;
  setattr "direction" (VInt 1);;
  p ← Pin (arg stepPin) (Some OUT) None; setattr "stepPin" (VPin p);;
  sp ← getattr "stepPin"; value_method sp 0;;
  p ← Pin (arg dirPin) (Some OUT) None; setattr "dirPin" (VPin p);;
  dp ← getattr "dirPin"; value_method dp 1;;
  p ← Pin (arg disablePin) (Some OUT) None; setattr "disablePin" (VPin p);;
  xp ← getattr "disablePin"; value_method xp 1;;
  hp ← getattr "homingPin";
  if is_None hp then mret ()
  else (hp ← getattr "homingPin"; Pin hp (Some IN) (Some PULL_UP);; mret ()).

Definition enableMotor : M unit :=
  xp ← getattr "disablePin"; value_method xp 0;;
  print MsgMotorEnabled.

Definition disableMotor : M unit :=
  xp ← getattr "disablePin"; p ← Pin xp (Some OUT) None; Pin_value p 1;;
  print MsgMotorDisabled.

Definition reverseDirections : M unit :=
  d ← getattr "direction"; d ← as_int d;
  setattr "direction" (VInt (- d));;
  print MsgDirectionReversed.

Definition setMicroStep (stepDivider : Z) : M unit :=
  (if bool_decide (stepDivider ∉ VALID_MICROSTEPS)
   then print (MsgInvalidMicrostep stepDivider);; sys_exit 1
   else mret ());;
  setattr "stepDivider" (VInt stepDivider);;
  print (MsgMicrostepSet stepDivider).

(** The bodies of the two loops of [step]: one step pulse, through a
    pin object made anew for each edge, and through the stored one. *)
Definition pulse_forward : M unit :=
  sp ← getattr "stepPin"; p ← Pin sp (Some OUT) None; Pin_value p 1;;
  sp ← getattr "stepPin"; p ← Pin sp (Some OUT) None; Pin_value p 0.

Definition pulse_backward : M unit :=
  sp ← getattr "stepPin"; value_method sp 1;;
  sp ← getattr "stepPin"; value_method sp 0.

Definition step (steps : Z) : M unit :=
  (if 0 <? steps
   then
     dp ← getattr "dirPin"; p ← Pin dp (Some OUT) None;
     dir ← getattr "direction"; dir ← as_int dir; Pin_value p dir;;
     for_range (Z.to_nat (Z.abs steps)) pulse_forward
   else mret ());;
  (if steps <? 0
   then
     dp ← getattr "dirPin"; p ← Pin dp (Some OUT) None;
     dir ← getattr "direction"; dir ← as_int dir; Pin_value p (- dir);;
     for_range (Z.to_nat (Z.abs steps)) pulse_backward
   else mret ());;
  pos ← getattr "position";
  dir ← getattr "direction"; dir ← as_int dir;
  pos ← as_int pos;
  setattr "position" (VInt (pos + steps * dir));;
  pos ← getattr "position";
  print (MsgMoved steps pos).

Definition setSpeed (rpm : Z) : M unit :=
  d ← getattr "stepDivider"; d ← as_int d;
  let steps_per_revolution := 200 * d in
  setattr "speed" (VFloat (truediv (rpm * steps_per_revolution) 60));;
  s ← getattr "speed"; s ← as_num s;
  mx ← getattr "MAX_RPM"; mx ← as_int mx;
  (if gt s (truediv (mx * steps_per_revolution) 60)
   then (mxv ← getattr "MAX_RPM"; print (MsgSpeedExceeds rpm mxv));; sys_exit 1
   else mret ());;
  sp ← getattr "stepPin"; p ← Pin sp None None; pwm ← PWM p (Some 32768);
  s ← getattr "speed"; f ← int s; PWM_freq pwm (VInt f);;
  dir ← getattr "direction"; dir ← as_int dir;
  (if rpm * dir <? 0
   then (dp ← getattr "dirPin"; value_method dp 1)
   else (dp ← getattr "dirPin"; value_method dp 0));;
  setattr "currentSpeed" (VInt rpm);;
  s ← getattr "speed";
  print (MsgSpeedSet rpm s).

Definition homeMotorReverse (speed : Z) : M unit :=
  hp ← getattr "homingPin";
  if is_None hp then print MsgNoHomingPin
  else
    hp ← getattr "homingPin"; print (MsgHoming hp);;
    setSpeed speed;;
    setattr "position" (VInt 0);;
    print MsgHomed.

Definition homeMotorForward (speed : Z) : M unit :=
  hp ← getattr "homingPin";
  if is_None hp then print MsgNoHomingPin
  else
    hp ← getattr "homingPin"; print (MsgHoming hp);;
    setattr "position" (VInt 0);;
    print MsgHomed.

Definition homeMotorReverse_default : Z := -60.
Definition homeMotorForward_default : Z := 60.

(** The statements at the end of the script. *)
Definition main : M unit :=
  __init__ (Some 17) (Some 16) (Some 7) (Some 4) None;;
  enableMotor;;
  setMicroStep 8;;
  setSpeed 300.

End BlinkLed.

(** * The vocabulary of the statements *)

(** The pulses of one loop of [n] iterations on GPIO [sp], as
    src/StepperMotor.py and the forward branch of src/BlinkLed.py emit them
    (the pin is reconfigured before each edge), and as the backward branch
    of src/BlinkLed.py emits them (on the stored pin object). *)
Fixpoint pulses (n : nat) (sp : Z) : list hw_event :=
  match n with
  | O => []
  | S k =>
      [PinInit sp (Some OUT) None; PinValue sp 1;
       PinInit sp (Some OUT) None; PinValue sp 0] ++ pulses k sp
  end.

Fixpoint bare_pulses (n : nat) (sp : Z) : list hw_event :=
  match n with
  | O => []
  | S k => [PinValue sp 1; PinValue sp 0] ++ bare_pulses k sp
  end.

(** The number of step pulses in a trace: the writes that drive GPIO [sp]
    high. *)
Definition drives_high (sp : Z) (e : hw_event) : bool :=
  match e with
  | PinValue i x => (i =? sp) && negb (x =? 0)
  | _ => false
  end.

Definition pulse_count (sp : Z) (tr : list hw_event) : nat :=
  length (List.filter (drives_high sp) tr).

(** The step frequency [setSpeed] derives from [rpm] and the divider [d],
    and the level it writes to the direction pin. *)
Definition frequency (rpm d : Z) : Q := truediv (rpm * (200 * d)) 60.

Definition dir_level (rpm dir : Z) : Z := if rpm * dir <? 0 then 1 else 0.

(** The hardware calls of one [step(steps)]. *)
Definition BlinkLed_step_trace (steps dir dp sp : Z) : list hw_event :=
  (if 0 <? steps
   then [PinInit dp (Some OUT) None; PinValue dp dir] ++
        pulses (Z.to_nat (Z.abs steps)) sp
   else []) ++
  (if steps <? 0
   then [PinInit dp (Some OUT) None; PinValue dp (- dir)] ++
        bare_pulses (Z.to_nat (Z.abs steps)) sp
   else []).

(** ** What [print] cannot influence

    A computation is blind to the console when its outcome, the attributes
    and the hardware calls it leaves do not depend on the lines printed
    before it.  Every method is: nothing reads the console back. *)

Definition same_motion {A} (r1 r2 : outcome A * world) : Prop :=
  fst r1 = fst r2 ∧ obj (snd r1) = obj (snd r2) ∧ hw (snd r1) = hw (snd r2).

Definition console_blind {A} (m : M A) : Prop :=
  ∀ o h c1 c2, same_motion (m (World o h c1)) (m (World o h c2)).

(** ** Which attributes a method can touch

    [modifies ks m]: whatever [m] does, and however it ends, the attributes
    outside [ks] read as before. *)

Definition modifies {A} (ks : list string) (m : M A) : Prop :=
  ∀ w k, k ∉ ks → obj (snd (m w)) !! k = obj w !! k.

(** The methods, as a caller picks them. *)
Inductive call :=
  | Enable
  | Disable
  | Reverse
  | SetMicroStep (d : Z)
  | Move (steps : Z)
  | SetSpeed (rpm : Z)
  | HomeReverse (speed : Z)
  | HomeForward (speed : Z).

(** The attributes a call can write. *)
Definition written (c : call) : list string :=
  match c with
  | Enable | Disable => []
  | Reverse => ["direction"]
  | SetMicroStep _ => ["stepDivider"]
  | Move _ => ["position"]
  | SetSpeed _ => ["speed"; "currentSpeed"]
  | HomeReverse _ => ["speed"; "currentSpeed"; "position"]
  | HomeForward _ => ["position"]
  end.

Definition StepperMotor_call (c : call) : M unit :=
  match c with
  | Enable => StepperMotor.enableMotor
  | Disable => StepperMotor.disableMotor
  | Reverse => StepperMotor.reverseDirections
  | SetMicroStep d => StepperMotor.setMicroStep d
  | Move steps => StepperMotor.moveSteps steps
  | SetSpeed rpm => StepperMotor.setSpeed rpm
  | HomeReverse speed => StepperMotor.homeMotorReverse speed
  | HomeForward speed => StepperMotor.homeMotorForward speed
  end.

Definition BlinkLed_call (c : call) : M unit :=
  match c with
  | Enable => BlinkLed.enableMotor
  | Disable => BlinkLed.disableMotor
  | Reverse => BlinkLed.reverseDirections
  | SetMicroStep d => BlinkLed.setMicroStep d
  | Move steps => BlinkLed.step steps
  | SetSpeed rpm => BlinkLed.setSpeed rpm
  | HomeReverse speed => BlinkLed.homeMotorReverse speed
  | HomeForward speed => BlinkLed.homeMotorForward speed
  end.

(** ** The states a controller goes through

    A controller is built by [__init__] with its three pins given and
    then driven by any sequence of calls, each taken up to wherever it
    ends (an exception leaves the object as it was at the raise). *)

(** The state [StepperMotor(...)] leaves, with the three pins given. *)
Definition StepperMotor_new (homingPin : option Z) (stepPin dirPin disablePin : Z) : world :=
  snd (StepperMotor.__init__ homingPin (Some stepPin) (Some dirPin)
         (Some disablePin) fresh).

Definition BlinkLed_new (stepPin dirPin disablePin : Z) (homingPin counterPin : option Z) : world :=
  snd (BlinkLed.__init__ (Some stepPin) (Some dirPin) (Some disablePin)
         homingPin counterPin fresh).

Inductive reachable (init : world) (method : call → M unit) : world → Prop :=
  | reach_init : reachable init method init
  | reach_call c w :
      reachable init method w → reachable init method (snd (method c w)).

(** What holds of the attributes in every such state.  [pinv] is how the
    class keeps a pin: its number in src/StepperMotor.py, a pin object in
    src/BlinkLed.py. *)
Record configured (pinv : Z → value) (sp dp xp : Z) (hp : option Z)
    (o : gmap string value) : Prop := Configured {
  cfg_step : o !! "stepPin" = Some (pinv sp);
  cfg_dir : o !! "dirPin" = Some (pinv dp);
  cfg_disable : o !! "disablePin" = Some (pinv xp);
  cfg_homing : o !! "homingPin" = Some (arg hp);
  cfg_max : o !! "MAX_RPM" = Some (VInt 600);
  cfg_enabled : o !! "enabled" = None;
  cfg_divider : ∃ d, o !! "stepDivider" = Some (VInt d) ∧ d ∈ VALID_MICROSTEPS;
  cfg_direction : ∃ s, o !! "direction" = Some (VInt s) ∧ (s = 1 ∨ s = -1);
  cfg_position : o !! "position" = None ∨ ∃ p, o !! "position" = Some (VInt p)
}.

(** ** The controllers of the examples *)

(** [sys.exit] ends the process: [SystemExit] is the one exception of the
    model a caller is not meant to recover from. *)
Definition fatal (e : exn) : bool :=
  match e with
  | SystemExit _ => true
  | _ => false
  end.

(** The controller of the script at the end of src/BlinkLed.py
    ([stepPin = 17, dirPin = 16, disablePin = 7, homingPin = 4]), built by
    either class, and the same controller without a homing pin. *)
Definition motor0 : world := StepperMotor_new (Some 4) 17 16 7.
Definition blink0 : world := BlinkLed_new 17 16 7 (Some 4) None.
Definition motor_unhomed : world := StepperMotor_new None 17 16 7.
Definition blink_unhomed : world := BlinkLed_new 17 16 7 None None.

(** The level [m] leaves on pin [p] from state [w], and what a second
    call adds to the first: nothing, on the attributes, on the level of
    any pin, on the configuration of any pin. *)
Definition drives_pin (m : M unit) (w : world) (p level : Z) : Prop :=
  let once := m w in
  let twice := m (snd once) in
  fst once = Return () ∧
  obj (snd once) = obj w ∧
  pin_level p (hw (snd once)) = Some level ∧
  (∀ q, q ≠ p → pin_level q (hw (snd once)) = pin_level q (hw w)) ∧
  fst twice = Return () ∧
  obj (snd twice) = obj (snd once) ∧
  (∀ q, pin_level q (hw (snd twice)) = pin_level q (hw (snd once))) ∧
  (∀ q, pin_config q (hw (snd twice)) = pin_config q (hw (snd once))).


(** The speed a controller has on record is within the limit: none yet,
    or an integer of at most 600 rpm. *)
Definition speed_within_limit (o : gmap string value) : Prop :=
  o !! "currentSpeed" = Some VNone ∨
  ∃ rpm, o !! "currentSpeed" = Some (VInt rpm) ∧ rpm ≤ 600.

(** * Reasoning principles *)

Lemma gt_truediv (a b k : Z) :
  0 < k → gt (truediv (a * k) 60) (truediv (b * k) 60) = (b <? a).
Proof.
  intros Hk. unfold gt, truediv, Qle_bool. cbn.
  destruct (Z.ltb_spec b a) as [Hlt|Hge].
  - apply negb_true_iff, Z.leb_gt. nia.
  - apply negb_false_iff, Z.leb_le. nia.
Qed.

Lemma pin_level_app id t1 t2 :
  pin_level id (t1 ++ t2) =
  match pin_level id t2 with
  | Some l => Some l
  | None => pin_level id t1
  end.
Proof.
  induction t1 as [|e t1 IH]; cbn.
  - by destruct (pin_level id t2).
  - rewrite IH. by destruct (pin_level id t2).
Qed.

Lemma pin_config_app id t1 t2 :
  pin_config id (t1 ++ t2) =
  match pin_config id t2 with
  | Some c => Some c
  | None => pin_config id t1
  end.
Proof.
  induction t1 as [|e t1 IH]; cbn.
  - by destruct (pin_config id t2).
  - rewrite IH. by destruct (pin_config id t2).
Qed.

(** Symbolic execution of a method body: unfold the monad and the
    primitives, then follow the attribute reads the hypotheses decide. *)
Ltac unfold_M :=
  unfold Pin, PWM, PWM_duty, PWM_freq, value_method, sys_exit in *;
  unfold Pin_value, as_int, as_num, int, pin_id in *;
  unfold getattr, setattr, print, emit, raise, mbind, M_bind, mret, M_ret in *.

Lemma bind_eq {A B} (m : M A) (f : A → M B) (w : world) :
  (m ≫= f) w =
  match m w with
  | (Return a, w') => f a w'
  | (Raise e, w') => (Raise e, w')
  end.
Proof. reflexivity. Qed.

Ltac exec :=
  repeat (progress cbn
          || rewrite lookup_insert_eq
          || (rewrite lookup_insert_ne by done)
          || match goal with
             | H : ?o !! ?k = _ |- context [?o !! ?k] => rewrite H
             end).

Ltac world_eq := rewrite <- ?app_assoc; cbn; try reflexivity.

Lemma int_truediv (a : Z) :
  Z.quot (Qnum (truediv a 60)) (Z.pos (Qden (truediv a 60))) = Z.quot a 60.
Proof. unfold truediv. cbn. by rewrite Z.mul_1_r. Qed.

Lemma not_valid_iff (d : Z) :
  bool_decide (d ∉ VALID_MICROSTEPS) = negb (bool_decide (d ∈ VALID_MICROSTEPS)).
Proof. by rewrite bool_decide_not. Qed.

Lemma valid_microstep_iff (d : Z) :
  d ∈ VALID_MICROSTEPS ↔ d = 1 ∨ d = 2 ∨ d = 4 ∨ d = 8 ∨ d = 16.
Proof.
  unfold VALID_MICROSTEPS. rewrite !elem_of_union, !elem_of_singleton. tauto.
Qed.

Lemma valid_microstep_pos (d : Z) : d ∈ VALID_MICROSTEPS → 0 < d.
Proof. rewrite valid_microstep_iff. lia. Qed.

(** ** What each method of src/StepperMotor.py does *)

Section StepperMotorFacts.
Import StepperMotor.

Lemma StepperMotor_enableMotor_eq w p :
  obj w !! "disablePin" = Some (VInt p) →
  enableMotor w =
    (Return (),
     World (obj w) (hw w ++ [PinInit p (Some OUT) None; PinValue p 0])
       (console w ++ [MsgMotorEnabled])).
Proof.
  destruct w as [o h c]; cbn; intros Hp.
  unfold enableMotor. unfold_M. exec. by world_eq.
Qed.

Lemma StepperMotor_disableMotor_eq w p :
  obj w !! "disablePin" = Some (VInt p) →
  disableMotor w =
    (Return (),
     World (obj w) (hw w ++ [PinInit p (Some OUT) None; PinValue p 1])
       (console w ++ [MsgMotorDisabled])).
Proof.
  destruct w as [o h c]; cbn; intros Hp.
  unfold disableMotor. unfold_M. exec. by world_eq.
Qed.

Lemma StepperMotor_reverseDirections_eq w d :
  obj w !! "direction" = Some (VInt d) →
  reverseDirections w =
    (Return (),
     World (<["direction" := VInt (- d)]> (obj w)) (hw w)
       (console w ++ [MsgDirectionReversed])).
Proof.
  destruct w as [o h c]; cbn; intros Hd.
  unfold reverseDirections. unfold_M. by exec.
Qed.

Lemma StepperMotor_setMicroStep_valid w d :
  d ∈ VALID_MICROSTEPS →
  setMicroStep d w =
    (Return (),
     World (<["stepDivider" := VInt d]> (obj w)) (hw w)
       (console w ++ [MsgMicrostepSet d])).
Proof.
  destruct w as [o h c]; intros Hd.
  unfold setMicroStep. rewrite not_valid_iff, bool_decide_eq_true_2 by done.
  unfold_M. by exec.
Qed.

Lemma StepperMotor_setMicroStep_invalid w d :
  d ∉ VALID_MICROSTEPS →
  setMicroStep d w =
    (Raise (SystemExit 1),
     World (obj w) (hw w) (console w ++ [MsgInvalidMicrostep d])).
Proof.
  destruct w as [o h c]; intros Hd.
  unfold setMicroStep. rewrite bool_decide_eq_true_2 by done.
  unfold_M. by exec.
Qed.

Lemma StepperMotor_pulse_eq w sp :
  obj w !! "stepPin" = Some (VInt sp) →
  pulse w = (Return (), World (obj w) (hw w ++ pulses 1 sp) (console w)).
Proof.
  destruct w as [o h c]; cbn; intros Hsp.
  unfold pulse. unfold_M. exec. by world_eq.
Qed.

Lemma StepperMotor_pulse_loop n w sp :
  obj w !! "stepPin" = Some (VInt sp) →
  for_range n pulse w =
    (Return (), World (obj w) (hw w ++ pulses n sp) (console w)).
Proof.
  revert w. induction n as [|n IH]; intros w Hsp.
  - destruct w. cbn. by rewrite app_nil_r.
  - cbn [for_range pulses]. rewrite bind_eq, (StepperMotor_pulse_eq _ sp), IH by done.
    cbn. by rewrite <- app_assoc.
Qed.

Lemma StepperMotor_moveSteps_positioned w steps sp pos :
  obj w !! "stepPin" = Some (VInt sp) →
  obj w !! "position" = Some pos →
  moveSteps steps w =
    (Return (),
     World (obj w) (hw w ++ pulses (Z.to_nat (Z.abs steps)) sp)
       (console w ++ [MsgMoved steps pos])).
Proof.
  intros Hsp Hpos. unfold moveSteps.
  rewrite bind_eq, (StepperMotor_pulse_loop _ _ sp) by done.
  destruct w as [o h c]; cbn in *. unfold_M. by exec.
Qed.

Lemma StepperMotor_moveSteps_unpositioned w steps sp :
  obj w !! "stepPin" = Some (VInt sp) →
  obj w !! "position" = None →
  moveSteps steps w =
    (Raise (AttributeError "position"),
     World (obj w) (hw w ++ pulses (Z.to_nat (Z.abs steps)) sp) (console w)).
Proof.
  intros Hsp Hpos. unfold moveSteps.
  rewrite bind_eq, (StepperMotor_pulse_loop _ _ sp) by done.
  destruct w as [o h c]; cbn in *. unfold_M. by exec.
Qed.

Lemma StepperMotor_setSpeed_accepted w rpm d mx sp dp dir :
  obj w !! "stepDivider" = Some (VInt d) → 0 < d →
  obj w !! "MAX_RPM" = Some (VInt mx) → rpm ≤ mx →
  obj w !! "stepPin" = Some (VInt sp) →
  obj w !! "dirPin" = Some (VInt dp) →
  obj w !! "direction" = Some (VInt dir) →
  setSpeed rpm w =
    (Return (),
     World
       (<["currentSpeed" := VInt rpm]>
          (<["speed" := VFloat (frequency rpm d)]> (obj w)))
       (hw w ++
        [PinInit sp None None; PwmInit sp None; PwmDuty sp 512;
         PwmFreq sp (VFloat (frequency rpm d));
         PinInit dp (Some OUT) None; PinValue dp (dir_level rpm dir)])
       (console w ++ [MsgSpeedSet rpm (VFloat (frequency rpm d))])).
Proof.
  destruct w as [o h c]; cbn [obj hw console].
  intros Hd Hpos Hmx Hle Hsp Hdp Hdir.
  unfold setSpeed, frequency, dir_level. unfold_M. exec.
  rewrite gt_truediv by lia.
  replace (mx <? rpm) with false by (symmetry; apply Z.ltb_ge; lia).
  exec. destruct (rpm * dir <? 0); exec; by world_eq.
Qed.

Lemma StepperMotor_setSpeed_rejected w rpm d mx :
  obj w !! "stepDivider" = Some (VInt d) → 0 < d →
  obj w !! "MAX_RPM" = Some (VInt mx) → mx < rpm →
  setSpeed rpm w =
    (Raise (SystemExit 1),
     World (<["speed" := VFloat (frequency rpm d)]> (obj w)) (hw w)
       (console w ++ [MsgSpeedExceeds rpm (VInt mx)])).
Proof.
  destruct w as [o h c]; cbn [obj hw console].
  intros Hd Hpos Hmx Hlt.
  unfold setSpeed, frequency. unfold_M. exec.
  rewrite gt_truediv by lia.
  replace (mx <? rpm) with true by (symmetry; apply Z.ltb_lt; lia).
  by exec.
Qed.

Lemma StepperMotor_homeMotorReverse_no_pin w speed :
  obj w !! "homingPin" = Some VNone →
  homeMotorReverse speed w =
    (Return (), World (obj w) (hw w) (console w ++ [MsgNoHomingPin])).
Proof.
  destruct w as [o h c]; cbn [obj hw console]; intros Hhp.
  unfold homeMotorReverse. unfold_M. by exec.
Qed.

Lemma StepperMotor_homeMotorForward_no_pin w speed :
  obj w !! "homingPin" = Some VNone →
  homeMotorForward speed w =
    (Return (), World (obj w) (hw w) (console w ++ [MsgNoHomingPin])).
Proof.
  destruct w as [o h c]; cbn [obj hw console]; intros Hhp.
  unfold homeMotorForward. unfold_M. by exec.
Qed.

Lemma StepperMotor_homeMotorReverse_with_pin w speed hp :
  obj w !! "homingPin" = Some hp → is_None hp = false →
  homeMotorReverse speed w =
    match setSpeed speed (World (obj w) (hw w) (console w ++ [MsgHoming hp])) with
    | (Return _, w1) =>
        (Return (),
         World (<["position" := VInt 0]> (obj w1)) (hw w1)
           (console w1 ++ [MsgHomed]))
    | (Raise e, w1) => (Raise e, w1)
    end.
Proof.
  destruct w as [o h c]; cbn [obj hw console]; intros Hhp Hsome.
  unfold homeMotorReverse. rewrite bind_eq. unfold getattr at 1.
  cbn [obj]. rewrite Hhp, Hsome. rewrite bind_eq. unfold getattr at 1.
  cbn [obj]. rewrite Hhp. rewrite bind_eq. unfold print at 1.
  cbn [obj hw console]. rewrite bind_eq.
  destruct (setSpeed speed _) as [[[]|e] [o1 h1 c1]]; by cbn.
Qed.

Lemma StepperMotor_homeMotorForward_with_pin w speed hp :
  obj w !! "homingPin" = Some hp → is_None hp = false →
  homeMotorForward speed w =
    (Return (),
     World (<["position" := VInt 0]> (obj w)) (hw w)
       (console w ++ [MsgHoming hp; MsgHomed])).
Proof.
  destruct w as [o h c]; cbn [obj hw console]; intros Hhp Hsome.
  unfold homeMotorForward. unfold_M. exec. rewrite Hsome. exec. by world_eq.
Qed.

Lemma StepperMotor_init_eq (homingPin : option Z) (stepPin dirPin disablePin : Z) :
  __init__ homingPin (Some stepPin) (Some dirPin) (Some disablePin) fresh =
    (Return (),
     World
       (<["direction" := VInt 1]>
          (<["MAX_RPM" := VInt 600]>
             (<["stepDivider" := VInt 1]>
                (<["homingPin" := arg homingPin]>
                   (<["disablePin" := VInt disablePin]>
                      (<["dirPin" := VInt dirPin]>
                         (<["stepPin" := VInt stepPin]>
                            (<["currentSpeed" := VNone]>
                               (<["currentPosition" := VNone]> ∅)))))))))
       ([PinInit stepPin (Some OUT) None; PinValue stepPin 0;
         PinInit dirPin (Some OUT) None; PinValue dirPin 0;
         PinInit disablePin (Some OUT) None; PinValue disablePin 1] ++
        match homingPin with
        | Some hp => [PinInit hp (Some IN) (Some PULL_UP)]
        | None => []
        end)
       []).
Proof. by destruct homingPin. Qed.

Lemma StepperMotor_init_missing_pin (homingPin stepPin dirPin disablePin : option Z) :
  stepPin = None ∨ dirPin = None ∨ disablePin = None →
  __init__ homingPin stepPin dirPin disablePin fresh =
    (Raise (SystemExit 1), World ∅ [] [MsgPinsNotDeclared]).
Proof.
  unfold __init__.
  destruct stepPin, dirPin, disablePin; try reflexivity;
    intros [H|[H|H]]; discriminate H.
Qed.

End StepperMotorFacts.

(** ** What each method of src/BlinkLed.py does *)

Section BlinkLedFacts.
Import BlinkLed.

Lemma BlinkLed_enableMotor_eq w p :
  obj w !! "disablePin" = Some (VPin p) →
  enableMotor w =
    (Return (),
     World (obj w) (hw w ++ [PinValue p 0]) (console w ++ [MsgMotorEnabled])).
Proof.
  destruct w as [o h c]; cbn; intros Hp.
  unfold enableMotor. unfold_M. by exec.
Qed.

Lemma BlinkLed_disableMotor_eq w p :
  obj w !! "disablePin" = Some (VPin p) →
  disableMotor w =
    (Return (),
     World (obj w) (hw w ++ [PinInit p (Some OUT) None; PinValue p 1])
       (console w ++ [MsgMotorDisabled])).
Proof.
  destruct w as [o h c]; cbn; intros Hp.
  unfold disableMotor. unfold_M. exec. by world_eq.
Qed.

Lemma BlinkLed_reverseDirections_eq w d :
  obj w !! "direction" = Some (VInt d) →
  reverseDirections w =
    (Return (),
     World (<["direction" := VInt (- d)]> (obj w)) (hw w)
       (console w ++ [MsgDirectionReversed])).
Proof.
  destruct w as [o h c]; cbn; intros Hd.
  unfold reverseDirections. unfold_M. by exec.
Qed.

Lemma BlinkLed_setMicroStep_valid w d :
  d ∈ VALID_MICROSTEPS →
  setMicroStep d w =
    (Return (),
     World (<["stepDivider" := VInt d]> (obj w)) (hw w)
       (console w ++ [MsgMicrostepSet d])).
Proof.
  destruct w as [o h c]; intros Hd.
  unfold setMicroStep. rewrite not_valid_iff, bool_decide_eq_true_2 by done.
  unfold_M. by exec.
Qed.

Lemma BlinkLed_setMicroStep_invalid w d :
  d ∉ VALID_MICROSTEPS →
  setMicroStep d w =
    (Raise (SystemExit 1),
     World (obj w) (hw w) (console w ++ [MsgInvalidMicrostep d])).
Proof.
  destruct w as [o h c]; intros Hd.
  unfold setMicroStep. rewrite bool_decide_eq_true_2 by done.
  unfold_M. by exec.
Qed.

Lemma BlinkLed_pulse_forward_eq w sp :
  obj w !! "stepPin" = Some (VPin sp) →
  pulse_forward w =
    (Return (), World (obj w) (hw w ++ pulses 1 sp) (console w)).
Proof.
  destruct w as [o h c]; cbn; intros Hsp.
  unfold pulse_forward. unfold_M. exec. by world_eq.
Qed.

Lemma BlinkLed_pulse_backward_eq w sp :
  obj w !! "stepPin" = Some (VPin sp) →
  pulse_backward w =
    (Return (), World (obj w) (hw w ++ bare_pulses 1 sp) (console w)).
Proof.
  destruct w as [o h c]; cbn; intros Hsp.
  unfold pulse_backward. unfold_M. exec. by world_eq.
Qed.

Lemma BlinkLed_forward_loop n w sp :
  obj w !! "stepPin" = Some (VPin sp) →
  for_range n pulse_forward w =
    (Return (), World (obj w) (hw w ++ pulses n sp) (console w)).
Proof.
  revert w. induction n as [|n IH]; intros w Hsp.
  - destruct w. cbn. by rewrite app_nil_r.
  - cbn [for_range pulses]. rewrite bind_eq, (BlinkLed_pulse_forward_eq _ sp), IH by done.
    cbn. by rewrite <- app_assoc.
Qed.

Lemma BlinkLed_backward_loop n w sp :
  obj w !! "stepPin" = Some (VPin sp) →
  for_range n pulse_backward w =
    (Return (), World (obj w) (hw w ++ bare_pulses n sp) (console w)).
Proof.
  revert w. induction n as [|n IH]; intros w Hsp.
  - destruct w. cbn. by rewrite app_nil_r.
  - cbn [for_range bare_pulses].
    rewrite bind_eq, (BlinkLed_pulse_backward_eq _ sp), IH by done.
    cbn. by rewrite <- app_assoc.
Qed.

Lemma BlinkLed_step_positioned w steps sp dp dir pos :
  obj w !! "stepPin" = Some (VPin sp) →
  obj w !! "dirPin" = Some (VPin dp) →
  obj w !! "direction" = Some (VInt dir) →
  obj w !! "position" = Some (VInt pos) →
  step steps w =
    (Return (),
     World (<["position" := VInt (pos + steps * dir)]> (obj w))
       (hw w ++ BlinkLed_step_trace steps dir dp sp)
       (console w ++ [MsgMoved steps (VInt (pos + steps * dir))])).
Proof.
  destruct w as [o h c]; cbn [obj hw console].
  intros Hsp Hdp Hdir Hpos. unfold step, BlinkLed_step_trace.
  destruct (0 <? steps) eqn:Hp; destruct (steps <? 0) eqn:Hn; try lia.
  - unfold_M. exec. rewrite (BlinkLed_forward_loop _ _ sp) by done.
    exec. rewrite app_nil_r. by world_eq.
  - unfold_M. exec. rewrite (BlinkLed_backward_loop _ _ sp) by done.
    exec. by world_eq.
  - unfold_M. exec. by rewrite app_nil_r.
Qed.

Lemma BlinkLed_step_unpositioned w steps sp dp dir :
  obj w !! "stepPin" = Some (VPin sp) →
  obj w !! "dirPin" = Some (VPin dp) →
  obj w !! "direction" = Some (VInt dir) →
  obj w !! "position" = None →
  step steps w =
    (Raise (AttributeError "position"),
     World (obj w) (hw w ++ BlinkLed_step_trace steps dir dp sp) (console w)).
Proof.
  destruct w as [o h c]; cbn [obj hw console].
  intros Hsp Hdp Hdir Hpos. unfold step, BlinkLed_step_trace.
  destruct (0 <? steps) eqn:Hp; destruct (steps <? 0) eqn:Hn; try lia.
  - unfold_M. exec. rewrite (BlinkLed_forward_loop _ _ sp) by done.
    exec. rewrite app_nil_r. by world_eq.
  - unfold_M. exec. rewrite (BlinkLed_backward_loop _ _ sp) by done.
    exec. by world_eq.
  - unfold_M. exec. by rewrite app_nil_r.
Qed.

Lemma BlinkLed_setSpeed_accepted w rpm d mx sp dp dir :
  obj w !! "stepDivider" = Some (VInt d) → 0 < d →
  obj w !! "MAX_RPM" = Some (VInt mx) → rpm ≤ mx →
  obj w !! "stepPin" = Some (VPin sp) →
  obj w !! "dirPin" = Some (VPin dp) →
  obj w !! "direction" = Some (VInt dir) →
  setSpeed rpm w =
    (Return (),
     World
       (<["currentSpeed" := VInt rpm]>
          (<["speed" := VFloat (frequency rpm d)]> (obj w)))
       (hw w ++
        [PinInit sp None None; PwmInit sp (Some 32768);
         PwmFreq sp (VInt (Z.quot (rpm * (200 * d)) 60));
         PinValue dp (dir_level rpm dir)])
       (console w ++ [MsgSpeedSet rpm (VFloat (frequency rpm d))])).
Proof.
  destruct w as [o h c]; cbn [obj hw console].
  intros Hd Hpos Hmx Hle Hsp Hdp Hdir.
  rewrite <- (int_truediv (rpm * (200 * d))).
  unfold setSpeed, frequency, dir_level. unfold_M. exec.
  rewrite gt_truediv by lia.
  replace (mx <? rpm) with false by (symmetry; apply Z.ltb_ge; lia).
  exec. destruct (rpm * dir <? 0); exec; by world_eq.
Qed.

Lemma BlinkLed_setSpeed_rejected w rpm d mx :
  obj w !! "stepDivider" = Some (VInt d) → 0 < d →
  obj w !! "MAX_RPM" = Some (VInt mx) → mx < rpm →
  setSpeed rpm w =
    (Raise (SystemExit 1),
     World (<["speed" := VFloat (frequency rpm d)]> (obj w)) (hw w)
       (console w ++ [MsgSpeedExceeds rpm (VInt mx)])).
Proof.
  destruct w as [o h c]; cbn [obj hw console].
  intros Hd Hpos Hmx Hlt.
  unfold setSpeed, frequency. unfold_M. exec.
  rewrite gt_truediv by lia.
  replace (mx <? rpm) with true by (symmetry; apply Z.ltb_lt; lia).
  by exec.
Qed.

Lemma BlinkLed_homeMotorReverse_no_pin w speed :
  obj w !! "homingPin" = Some VNone →
  homeMotorReverse speed w =
    (Return (), World (obj w) (hw w) (console w ++ [MsgNoHomingPin])).
Proof.
  destruct w as [o h c]; cbn [obj hw console]; intros Hhp.
  unfold homeMotorReverse. unfold_M. by exec.
Qed.

Lemma BlinkLed_homeMotorForward_no_pin w speed :
  obj w !! "homingPin" = Some VNone →
  homeMotorForward speed w =
    (Return (), World (obj w) (hw w) (console w ++ [MsgNoHomingPin])).
Proof.
  destruct w as [o h c]; cbn [obj hw console]; intros Hhp.
  unfold homeMotorForward. unfold_M. by exec.
Qed.

Lemma BlinkLed_homeMotorReverse_with_pin w speed hp :
  obj w !! "homingPin" = Some hp → is_None hp = false →
  homeMotorReverse speed w =
    match setSpeed speed (World (obj w) (hw w) (console w ++ [MsgHoming hp])) with
    | (Return _, w1) =>
        (Return (),
         World (<["position" := VInt 0]> (obj w1)) (hw w1)
           (console w1 ++ [MsgHomed]))
    | (Raise e, w1) => (Raise e, w1)
    end.
Proof.
  destruct w as [o h c]; cbn [obj hw console]; intros Hhp Hsome.
  unfold homeMotorReverse. rewrite bind_eq. unfold getattr at 1.
  cbn [obj]. rewrite Hhp, Hsome. rewrite bind_eq. unfold getattr at 1.
  cbn [obj]. rewrite Hhp. rewrite bind_eq. unfold print at 1.
  cbn [obj hw console]. rewrite bind_eq.
  destruct (setSpeed speed _) as [[[]|e] [o1 h1 c1]]; by cbn.
Qed.

Lemma BlinkLed_homeMotorForward_with_pin w speed hp :
  obj w !! "homingPin" = Some hp → is_None hp = false →
  homeMotorForward speed w =
    (Return (),
     World (<["position" := VInt 0]> (obj w)) (hw w)
       (console w ++ [MsgHoming hp; MsgHomed])).
Proof.
  destruct w as [o h c]; cbn [obj hw console]; intros Hhp Hsome.
  unfold homeMotorForward. unfold_M. exec. rewrite Hsome. exec. by world_eq.
Qed.

Lemma BlinkLed_init_eq (stepPin dirPin disablePin : Z) (homingPin counterPin : option Z) :
  __init__ (Some stepPin) (Some dirPin) (Some disablePin) homingPin counterPin fresh =
    (Return (),
     World
       (<["disablePin" := VPin disablePin]>
          (<["dirPin" := VPin dirPin]>
             (<["stepPin" := VPin stepPin]>
                (<["direction" := VInt 1]>
                   (<["MAX_RPM" := VInt 600]>
                      (<["stepDivider" := VInt 1]>
                         (<["homingPin" := arg homingPin]>
                            (<["currentSpeed" := VNone]>
                               (<["currentPosition" := VNone]> ∅)))))))))
       ([PinInit stepPin (Some OUT) None; PinValue stepPin 0;
         PinInit dirPin (Some OUT) None; PinValue dirPin 1;
         PinInit disablePin (Some OUT) None; PinValue disablePin 1] ++
        match homingPin with
        | Some hp => [PinInit hp (Some IN) (Some PULL_UP)]
        | None => []
        end)
       []).
Proof. by destruct homingPin. Qed.

Lemma BlinkLed_init_missing_pin (stepPin dirPin disablePin homingPin counterPin : option Z) :
  stepPin = None ∨ dirPin = None ∨ disablePin = None →
  __init__ stepPin dirPin disablePin homingPin counterPin fresh =
    (Raise (SystemExit 1), World ∅ [] [MsgPinsNotDeclared]).
Proof.
  unfold __init__.
  destruct stepPin, dirPin, disablePin; try reflexivity;
    intros [H|[H|H]]; discriminate H.
Qed.

End BlinkLedFacts.

(** ** Nothing reads the console back *)

Section console_blind.
Context {A B : Type}.

Lemma blind_ret (a : A) : console_blind (mret a).
Proof. by intros o h c1 c2. Qed.

Lemma blind_raise (e : exn) : console_blind (@raise A e).
Proof. by intros o h c1 c2. Qed.

Lemma blind_bind (m : M A) (f : A → M B) :
  console_blind m → (∀ a, console_blind (f a)) → console_blind (m ≫= f).
Proof.
  intros Hm Hf o h c1 c2. rewrite !bind_eq.
  destruct (Hm o h c1 c2) as (Hr & Ho & Hh).
  destruct (m (World o h c1)) as [r1 [o1 h1 d1]], (m (World o h c2)) as [r2 [o2 h2 d2]].
  cbn in Hr, Ho, Hh. subst r2 o2 h2.
  destruct r1 as [a|e]; [apply Hf | done].
Qed.
End console_blind.

Lemma blind_getattr k : console_blind (getattr k).
Proof. intros o h c1 c2. unfold getattr; cbn. by destruct (o !! k). Qed.

Lemma blind_setattr k v : console_blind (setattr k v).
Proof. by intros o h c1 c2. Qed.

Lemma blind_emit e : console_blind (emit e).
Proof. by intros o h c1 c2. Qed.

Lemma blind_print m : console_blind (print m).
Proof. by intros o h c1 c2. Qed.

Lemma blind_for_range n body :
  console_blind body → console_blind (for_range n body).
Proof.
  intros Hb. induction n as [|n IH]; cbn [for_range].
  - apply blind_ret.
  - by apply blind_bind.
Qed.

Ltac blind :=
  repeat (intros;
    lazymatch goal with
    | |- console_blind (mbind _ _) => apply blind_bind
    | |- console_blind (mret _) => apply blind_ret
    | |- console_blind (raise _) => apply blind_raise
    | |- console_blind (sys_exit _) => apply blind_raise
    | |- console_blind (getattr _) => apply blind_getattr
    | |- console_blind (setattr _ _) => apply blind_setattr
    | |- console_blind (emit _) => apply blind_emit
    | |- console_blind (print _) => apply blind_print
    | |- console_blind (for_range _ _) => apply blind_for_range
    | |- console_blind (if ?b then _ else _) => destruct b
    | |- console_blind (as_int ?v) => destruct v; unfold as_int
    | |- console_blind (Pin ?v _ _) => unfold Pin, pin_id; destruct v
    | |- console_blind (value_method ?v _) => unfold value_method; destruct v
    | |- console_blind (Pin_value _ _) => unfold Pin_value
    end).

Lemma blind_StepperMotor_moveSteps steps :
  console_blind (StepperMotor.moveSteps steps).
Proof. unfold StepperMotor.moveSteps, StepperMotor.pulse. blind. Qed.

Lemma blind_BlinkLed_step steps : console_blind (BlinkLed.step steps).
Proof.
  unfold BlinkLed.step, BlinkLed.pulse_forward, BlinkLed.pulse_backward. blind.
Qed.

(** ** The attributes each method writes *)

Section modifies.
Context {A B : Type} (ks : list string).

Lemma modifies_ret (a : A) : modifies ks (mret a).
Proof. by intros w k Hk. Qed.

Lemma modifies_raise (e : exn) : modifies ks (@raise A e).
Proof. by intros w k Hk. Qed.

Lemma modifies_bind (m : M A) (f : A → M B) :
  modifies ks m → (∀ a, modifies ks (f a)) → modifies ks (m ≫= f).
Proof.
  intros Hm Hf w k Hk. rewrite bind_eq. specialize (Hm w k Hk).
  destruct (m w) as [[a|e] w1]; cbn in *; [|done].
  by rewrite Hf.
Qed.

Lemma modifies_weaken (ks' : list string) (m : M A) :
  ks' ⊆ ks → modifies ks' m → modifies ks m.
Proof. intros Hsub Hm w k Hk. apply Hm. intros Hin. by apply Hk, Hsub. Qed.
End modifies.

Lemma modifies_getattr ks k : modifies ks (getattr k).
Proof. intros w k' Hk. unfold getattr. by destruct (obj w !! k). Qed.

Lemma modifies_setattr ks k v : k ∈ ks → modifies ks (setattr k v).
Proof.
  intros Hin w k' Hk. cbn. apply lookup_insert_ne. by intros ->.
Qed.

Lemma modifies_emit ks e : modifies ks (emit e).
Proof. by intros w k Hk. Qed.

Lemma modifies_print ks m : modifies ks (print m).
Proof. by intros w k Hk. Qed.

Lemma modifies_for_range ks n body :
  modifies ks body → modifies ks (for_range n body).
Proof.
  intros Hb. induction n as [|n IH]; cbn [for_range].
  - apply modifies_ret.
  - by apply modifies_bind.
Qed.

Ltac frame :=
  repeat (intros;
    lazymatch goal with
    | |- modifies _ (mbind _ _) => apply modifies_bind
    | |- modifies _ (mret _) => apply modifies_ret
    | |- modifies _ (raise _) => apply modifies_raise
    | |- modifies _ (sys_exit _) => apply modifies_raise
    | |- modifies _ (getattr _) => apply modifies_getattr
    | |- modifies _ (setattr _ _) =>
        apply modifies_setattr; by repeat constructor
    | |- modifies _ (emit _) => apply modifies_emit
    | |- modifies _ (print _) => apply modifies_print
    | |- modifies _ (for_range _ _) => apply modifies_for_range
    | |- modifies _ (if ?b then _ else _) => destruct b
    | |- modifies _ (as_int ?v) => destruct v; unfold as_int
    | |- modifies _ (as_num ?v) => destruct v; unfold as_num
    | |- modifies _ (int ?v) => destruct v; unfold int
    | |- modifies _ (Pin ?v _ _) => unfold Pin, pin_id; destruct v
    | |- modifies _ (value_method ?v _) => unfold value_method; destruct v
    | |- modifies _ (PWM _ _) => unfold PWM
    | |- modifies _ (PWM_duty _ _) => unfold PWM_duty
    | |- modifies _ (PWM_freq _ _) => unfold PWM_freq
    | |- modifies _ (Pin_value _ _) => unfold Pin_value
    end).

Lemma StepperMotor_call_modifies c : modifies (written c) (StepperMotor_call c).
Proof.
  destruct c; cbn [StepperMotor_call written];
    unfold StepperMotor.enableMotor, StepperMotor.disableMotor,
      StepperMotor.reverseDirections, StepperMotor.setMicroStep,
      StepperMotor.moveSteps, StepperMotor.pulse, StepperMotor.homeMotorReverse,
      StepperMotor.homeMotorForward, StepperMotor.setSpeed; frame.
Qed.

Lemma BlinkLed_call_modifies c : modifies (written c) (BlinkLed_call c).
Proof.
  destruct c; cbn [BlinkLed_call written];
    unfold BlinkLed.enableMotor, BlinkLed.disableMotor,
      BlinkLed.reverseDirections, BlinkLed.setMicroStep,
      BlinkLed.step, BlinkLed.pulse_forward, BlinkLed.pulse_backward,
      BlinkLed.homeMotorReverse, BlinkLed.homeMotorForward,
      BlinkLed.setSpeed; frame.
Qed.

(** ** The invariant of a controller *)

Ltac not_written :=
  let H := fresh in
  intros H; repeat (apply elem_of_cons in H as [H|H]; [discriminate H|]);
  by apply elem_of_nil in H.

Lemma is_None_arg (hp : option Z) : is_None (arg hp) = false ∨ arg hp = VNone.
Proof. destruct hp; [by left | by right]. Qed.

Section configured.
Context (pinv : Z → value) (sp dp xp : Z) (hp : option Z).
Context (method : call → M unit).
Hypothesis method_modifies : ∀ c, modifies (written c) (method c).
Hypothesis reverse_eq : ∀ w d,
  obj w !! "direction" = Some (VInt d) →
  obj (snd (method Reverse w)) = <["direction" := VInt (- d)]> (obj w).
Hypothesis microstep_eq : ∀ w d,
  obj (snd (method (SetMicroStep d) w)) =
    if bool_decide (d ∈ VALID_MICROSTEPS)
    then <["stepDivider" := VInt d]> (obj w) else obj w.
Hypothesis position_int : ∀ c w,
  configured pinv sp dp xp hp (obj w) →
  obj (snd (method c w)) !! "position" = obj w !! "position" ∨
  ∃ p, obj (snd (method c w)) !! "position" = Some (VInt p).

Lemma configured_call c w :
  configured pinv sp dp xp hp (obj w) →
  configured pinv sp dp xp hp (obj (snd (method c w))).
Proof.
  intros Hc. pose proof Hc as [H1 H2 H3 H4 H5 H6 (d & Hd & Hv) (s & Hs & Hpm) Hp].
  assert (∀ k, k ∉ written c →
    obj (snd (method c w)) !! k = obj w !! k) as Hframe
    by (intros k; apply method_modifies).
  split.
  - rewrite Hframe; [done | destruct c; not_written].
  - rewrite Hframe; [done | destruct c; not_written].
  - rewrite Hframe; [done | destruct c; not_written].
  - rewrite Hframe; [done | destruct c; not_written].
  - rewrite Hframe; [done | destruct c; not_written].
  - rewrite Hframe; [done | destruct c; not_written].
  - destruct c as [| | |d'| | | |];
      try (exists d; split; [|done]; rewrite Hframe; [done | not_written]).
    rewrite microstep_eq. case_bool_decide.
    + eexists. by rewrite lookup_insert_eq.
    + eauto.
  - destruct c;
      try (exists s; split; [|done]; rewrite Hframe; [done | not_written]).
    rewrite (reverse_eq _ s) by done. exists (- s).
    rewrite lookup_insert_eq. split; [done | lia].
  - destruct (position_int c w Hc) as [->|?]; [done | by right].
Qed.

Lemma configured_reachable init w :
  configured pinv sp dp xp hp (obj init) →
  reachable init method w →
  configured pinv sp dp xp hp (obj w).
Proof. intros Hi Hr. induction Hr; [done | by apply configured_call]. Qed.
End configured.

Lemma StepperMotor_position_int sp dp xp hp c w :
  configured VInt sp dp xp hp (obj w) →
  obj (snd (StepperMotor_call c w)) !! "position" = obj w !! "position" ∨
  ∃ p, obj (snd (StepperMotor_call c w)) !! "position" = Some (VInt p).
Proof.
  intros [H1 H2 H3 H4 H5 H6 (d & Hd & Hv) (s & Hs & Hpm) Hp].
  destruct c as [| | | |steps| |speed|speed];
    try (left; apply (StepperMotor_call_modifies _ w); not_written);
    cbn [StepperMotor_call].
  - left. destruct (obj w !! "position") as [pos|] eqn:Hpos.
    + by rewrite (StepperMotor_moveSteps_positioned w steps sp pos).
    + by rewrite (StepperMotor_moveSteps_unpositioned w steps sp).
  - destruct (is_None_arg hp) as [Hn|Hn].
    + rewrite (StepperMotor_homeMotorReverse_with_pin w speed (arg hp)) by done.
      pose proof (StepperMotor_call_modifies (SetSpeed speed)
        (World (obj w) (hw w) (console w ++ [MsgHoming (arg hp)])) "position") as Hf.
      cbn [StepperMotor_call written obj] in Hf.
      destruct (StepperMotor.setSpeed speed _) as [[[]|e] w1]; cbn [snd obj] in *.
      * right. eexists. by rewrite lookup_insert_eq.
      * left. apply Hf. not_written.
    + rewrite Hn in H4. left.
      by rewrite StepperMotor_homeMotorReverse_no_pin.
  - destruct (is_None_arg hp) as [Hn|Hn].
    + rewrite (StepperMotor_homeMotorForward_with_pin w speed (arg hp)) by done.
      right. eexists. cbn. by rewrite lookup_insert_eq.
    + rewrite Hn in H4. left.
      by rewrite StepperMotor_homeMotorForward_no_pin.
Qed.

Lemma BlinkLed_position_int sp dp xp hp c w :
  configured VPin sp dp xp hp (obj w) →
  obj (snd (BlinkLed_call c w)) !! "position" = obj w !! "position" ∨
  ∃ p, obj (snd (BlinkLed_call c w)) !! "position" = Some (VInt p).
Proof.
  intros [H1 H2 H3 H4 H5 H6 (d & Hd & Hv) (s & Hs & Hpm) Hp].
  destruct c as [| | | |steps| |speed|speed];
    try (left; apply (BlinkLed_call_modifies _ w); not_written);
    cbn [BlinkLed_call].
  - destruct Hp as [Hpos|[pos Hpos]].
    + left. by rewrite (BlinkLed_step_unpositioned w steps sp dp s).
    + right. rewrite (BlinkLed_step_positioned w steps sp dp s pos) by done.
      eexists. cbn. by rewrite lookup_insert_eq.
  - destruct (is_None_arg hp) as [Hn|Hn].
    + rewrite (BlinkLed_homeMotorReverse_with_pin w speed (arg hp)) by done.
      pose proof (BlinkLed_call_modifies (SetSpeed speed)
        (World (obj w) (hw w) (console w ++ [MsgHoming (arg hp)])) "position") as Hf.
      cbn [BlinkLed_call written obj] in Hf.
      destruct (BlinkLed.setSpeed speed _) as [[[]|e] w1]; cbn [snd obj] in *.
      * right. eexists. by rewrite lookup_insert_eq.
      * left. apply Hf. not_written.
    + rewrite Hn in H4. left.
      by rewrite BlinkLed_homeMotorReverse_no_pin.
  - destruct (is_None_arg hp) as [Hn|Hn].
    + rewrite (BlinkLed_homeMotorForward_with_pin w speed (arg hp)) by done.
      right. eexists. cbn. by rewrite lookup_insert_eq.
    + rewrite Hn in H4. left.
      by rewrite BlinkLed_homeMotorForward_no_pin.
Qed.

Lemma microstep_obj (setMicroStep : Z → M unit) :
  (∀ w d, d ∈ VALID_MICROSTEPS →
     setMicroStep d w =
       (Return (),
        World (<["stepDivider" := VInt d]> (obj w)) (hw w)
          (console w ++ [MsgMicrostepSet d]))) →
  (∀ w d, d ∉ VALID_MICROSTEPS →
     setMicroStep d w =
       (Raise (SystemExit 1),
        World (obj w) (hw w) (console w ++ [MsgInvalidMicrostep d]))) →
  ∀ w d,
    obj (snd (setMicroStep d w)) =
      if bool_decide (d ∈ VALID_MICROSTEPS)
      then <["stepDivider" := VInt d]> (obj w) else obj w.
Proof.
  intros Hv Hi w d. case_bool_decide; [by rewrite Hv | by rewrite Hi].
Qed.

(** The attributes of a controller of src/StepperMotor.py, whatever has
    been called on it since [__init__]. *)
Lemma StepperMotor_configured (sp dp xp : Z) (hp : option Z) (w : world) :
  reachable (StepperMotor_new hp sp dp xp) StepperMotor_call w →
  configured VInt sp dp xp hp (obj w).
Proof.
  unfold StepperMotor_new. apply configured_reachable.
  - apply StepperMotor_call_modifies.
  - intros w' d Hd. cbn. by rewrite (StepperMotor_reverseDirections_eq w' d).
  - apply (microstep_obj StepperMotor.setMicroStep);
      [apply StepperMotor_setMicroStep_valid
      |apply StepperMotor_setMicroStep_invalid].
  - apply StepperMotor_position_int.
  - rewrite StepperMotor_init_eq. cbn [snd obj].
    split; try done.
    + exists 1. split; [done | by vm_compute].
    + exists 1. split; [done | by left].
    + by left.
Qed.

(** The same for src/BlinkLed.py. *)
Lemma BlinkLed_configured (sp dp xp : Z) (hp cp : option Z) (w : world) :
  reachable (BlinkLed_new sp dp xp hp cp) BlinkLed_call w →
  configured VPin sp dp xp hp (obj w).
Proof.
  unfold BlinkLed_new. apply configured_reachable.
  - apply BlinkLed_call_modifies.
  - intros w' d Hd. cbn. by rewrite (BlinkLed_reverseDirections_eq w' d).
  - apply (microstep_obj BlinkLed.setMicroStep);
      [apply BlinkLed_setMicroStep_valid
      |apply BlinkLed_setMicroStep_invalid].
  - apply BlinkLed_position_int.
  - rewrite BlinkLed_init_eq. cbn [snd obj].
    split; try done.
    + exists 1. split; [done | by vm_compute].
    + exists 1. split; [done | by left].
    + by left.
Qed.

(** * Speed limit *)




(** * Microstep divider *)

(** C2, as the code has it: a divider in {1, 2, 4, 8, 16} is stored and
    read back; for any other integer [setMicroStep] prints its error and
    ends the process through [sys.exit(1)], the divider and everything
    else left as they were. *)
Theorem setMicroStep_valid_or_exit (w : world) (d : Z) :
  (d ∈ VALID_MICROSTEPS →
   let w' :=
     World (<["stepDivider" := VInt d]> (obj w)) (hw w)
       (console w ++ [MsgMicrostepSet d]) in
   StepperMotor.setMicroStep d w = (Return (), w') ∧
   BlinkLed.setMicroStep d w = (Return (), w') ∧
   getattr "stepDivider" w' = (Return (VInt d), w')) ∧
  (d ∉ VALID_MICROSTEPS →
   let w' := World (obj w) (hw w) (console w ++ [MsgInvalidMicrostep d]) in
   StepperMotor.setMicroStep d w = (Raise (SystemExit 1), w') ∧
   BlinkLed.setMicroStep d w = (Raise (SystemExit 1), w')).
Proof.
  split; intros Hd w'; subst w'; repeat split.
  - by apply StepperMotor_setMicroStep_valid.
  - by apply BlinkLed_setMicroStep_valid.
  - unfold getattr. cbn. by rewrite lookup_insert_eq.
  - by apply StepperMotor_setMicroStep_invalid.
  - by apply BlinkLed_setMicroStep_invalid.
Qed.

Lemma setMicroStep_valid_or_exit_witness :
  StepperMotor.setMicroStep 8 motor0 =
    (Return (),
     World (<["stepDivider" := VInt 8]> (obj motor0)) (hw motor0)
       (console motor0 ++ [MsgMicrostepSet 8])) ∧
  StepperMotor.setMicroStep 3 motor0 =
    (Raise (SystemExit 1),
     World (obj motor0) (hw motor0) (console motor0 ++ [MsgInvalidMicrostep 3])).
Proof.
  split.
  - apply (setMicroStep_valid_or_exit motor0 8). by vm_compute.
  - apply (setMicroStep_valid_or_exit motor0 3). by vm_compute.
Defined.

(** C2 as stated fails at divider 3: the failure is the end of the
    process, not a result returned to the caller. *)
Lemma setMicroStep_invalid_not_recoverable :
  ¬ (∃ e, fst (StepperMotor.setMicroStep 3 motor0) = Raise e ∧ fatal e = false) ∧
  ¬ (∃ e, fst (BlinkLed.setMicroStep 3 blink0) = Raise e ∧ fatal e = false).
Proof.
  split; intros (e & He & Hf); vm_compute in He; by inversion He; subst.
Qed.

(** * Position *)

(** C3 fails on the code: [__init__] sets [currentPosition], never
    [position], so on a controller that has not been homed the move of
    either class emits its pulses and then raises [AttributeError] on the
    read of [self.position]. *)
Theorem move_before_homing_raises
    (stepPin dirPin disablePin steps : Z) (homingPin : option Z) :
  let m := StepperMotor_new homingPin stepPin dirPin disablePin in
  let b := BlinkLed_new stepPin dirPin disablePin homingPin None in
  obj m !! "position" = None ∧
  obj m !! "currentPosition" = Some VNone ∧
  fst (StepperMotor.moveSteps steps m) = Raise (AttributeError "position") ∧
  obj b !! "position" = None ∧
  obj b !! "currentPosition" = Some VNone ∧
  fst (BlinkLed.step steps b) = Raise (AttributeError "position").
Proof.
  intros m b. subst m b. unfold StepperMotor_new, BlinkLed_new.
  rewrite StepperMotor_init_eq, BlinkLed_init_eq. cbn [snd].
  repeat split; try reflexivity.
  - by rewrite (StepperMotor_moveSteps_unpositioned _ _ stepPin).
  - by rewrite (BlinkLed_step_unpositioned _ _ stepPin dirPin 1).
Qed.

(** C4 fails on src/StepperMotor.py: [moveSteps] emits its pulses and
    prints the position, but never updates it.  On the script's
    controller, homed so that [position] is 0, [moveSteps(5)] emits five
    pulses and leaves [position] at 0; [step(5)] of src/BlinkLed.py moves
    it to 5. *)
Theorem moveSteps_leaves_position :
  let m :=
    snd (StepperMotor.homeMotorForward StepperMotor.homeMotorForward_default
           motor0) in
  let b :=
    snd (BlinkLed.homeMotorForward BlinkLed.homeMotorForward_default blink0) in
  obj m !! "position" = Some (VInt 0) ∧
  obj m !! "direction" = Some (VInt 1) ∧
  fst (StepperMotor.moveSteps 5 m) = Return () ∧
  hw (snd (StepperMotor.moveSteps 5 m)) = hw m ++ pulses 5 17 ∧
  obj (snd (StepperMotor.moveSteps 5 m)) !! "position" = Some (VInt 0) ∧
  obj b !! "position" = Some (VInt 0) ∧
  fst (BlinkLed.step 5 b) = Return () ∧
  obj (snd (BlinkLed.step 5 b)) !! "position" = Some (VInt 5).
Proof. by vm_compute. Qed.

(** * Stored step frequency *)




(** * Construction *)

(** C6, as the code has it: with its three pins given, [__init__]
    configures the step, direction and disable pins as outputs and writes
    0 to the step pin, 1 to the disable pin, and to the direction pin 0 in
    src/StepperMotor.py but 1 in src/BlinkLed.py; a homing pin, when
    given, is configured as an input with pull-up.  The attributes start
    at [direction = 1], [stepDivider = 1], [currentSpeed = None]; the
    object has no [enabled] attribute, the level of the disable pin being
    all there is. *)
Theorem init_configures_pins (stepPin dirPin disablePin : Z) (homingPin counterPin : option Z) :
  let m :=
    StepperMotor.__init__ homingPin (Some stepPin) (Some dirPin)
      (Some disablePin) fresh in
  let b :=
    BlinkLed.__init__ (Some stepPin) (Some dirPin) (Some disablePin)
      homingPin counterPin fresh in
  let homing :=
    match homingPin with
    | Some hp => [PinInit hp (Some IN) (Some PULL_UP)]
    | None => []
    end in
  fst m = Return () ∧
  hw (snd m) =
    [PinInit stepPin (Some OUT) None; PinValue stepPin 0;
     PinInit dirPin (Some OUT) None; PinValue dirPin 0;
     PinInit disablePin (Some OUT) None; PinValue disablePin 1] ++ homing ∧
  fst b = Return () ∧
  hw (snd b) =
    [PinInit stepPin (Some OUT) None; PinValue stepPin 0;
     PinInit dirPin (Some OUT) None; PinValue dirPin 1;
     PinInit disablePin (Some OUT) None; PinValue disablePin 1] ++ homing ∧
  (∀ o, o = obj (snd m) ∨ o = obj (snd b) →
     o !! "direction" = Some (VInt 1) ∧
     o !! "stepDivider" = Some (VInt 1) ∧
     o !! "currentSpeed" = Some VNone ∧
     o !! "homingPin" = Some (arg homingPin) ∧
     o !! "enabled" = None).
Proof.
  intros m b homing. subst m b homing.
  rewrite StepperMotor_init_eq, BlinkLed_init_eq. cbn [fst snd hw obj].
  repeat split; destruct H as [->| ->]; reflexivity.
Qed.

(** C6 as stated fails on src/BlinkLed.py: the direction pin of the
    script's controller starts at level 1, and neither class gives the
    object an [enabled] attribute. *)
Lemma BlinkLed_dirPin_starts_high :
  pin_level 16 (hw blink0) ≠ Some 0 ∧
  pin_level 16 (hw blink0) = Some 1 ∧
  ¬ (∃ v, obj blink0 !! "enabled" = Some v) ∧
  ¬ (∃ v, obj motor0 !! "enabled" = Some v).
Proof.
  split; [|split; [|split]].
  - intros H. vm_compute in H. discriminate H.
  - vm_compute. reflexivity.
  - intros [v Hv]. vm_compute in Hv. discriminate Hv.
  - intros [v Hv]. vm_compute in Hv. discriminate Hv.
Qed.

(** * Homing *)

(** C7, as the code has it: on a controller built without a homing pin,
    whatever has been called on it since, both homing methods print the
    error and return normally, as a successful homing does; no error
    value or exception reaches the caller.  The call is not fatal and
    leaves every attribute and the hardware untouched. *)
Theorem home_without_pin_reports
    (stepPin dirPin disablePin speed : Z) (counterPin : option Z) (wm wb : world) :
  reachable (StepperMotor_new None stepPin dirPin disablePin)
    StepperMotor_call wm →
  reachable (BlinkLed_new stepPin dirPin disablePin None counterPin)
    BlinkLed_call wb →
  StepperMotor.homeMotorReverse speed wm =
    (Return (), World (obj wm) (hw wm) (console wm ++ [MsgNoHomingPin])) ∧
  StepperMotor.homeMotorForward speed wm =
    (Return (), World (obj wm) (hw wm) (console wm ++ [MsgNoHomingPin])) ∧
  BlinkLed.homeMotorReverse speed wb =
    (Return (), World (obj wb) (hw wb) (console wb ++ [MsgNoHomingPin])) ∧
  BlinkLed.homeMotorForward speed wb =
    (Return (), World (obj wb) (hw wb) (console wb ++ [MsgNoHomingPin])).
Proof.
  intros Hm Hb.
  apply StepperMotor_configured in Hm as [_ _ _ Hm _ _ _ _ _].
  apply BlinkLed_configured in Hb as [_ _ _ Hb _ _ _ _ _].
  repeat split.
  - by apply StepperMotor_homeMotorReverse_no_pin.
  - by apply StepperMotor_homeMotorForward_no_pin.
  - by apply BlinkLed_homeMotorReverse_no_pin.
  - by apply BlinkLed_homeMotorForward_no_pin.
Qed.

Lemma home_without_pin_reports_witness :
  StepperMotor.homeMotorReverse (-60) motor_unhomed =
    (Return (),
     World (obj motor_unhomed) (hw motor_unhomed)
       (console motor_unhomed ++ [MsgNoHomingPin])) ∧
  BlinkLed.homeMotorReverse (-60) (snd (BlinkLed.setSpeed 300 blink_unhomed)) =
    (Return (),
     World (obj (snd (BlinkLed.setSpeed 300 blink_unhomed)))
       (hw (snd (BlinkLed.setSpeed 300 blink_unhomed)))
       (console (snd (BlinkLed.setSpeed 300 blink_unhomed)) ++ [MsgNoHomingPin])).
Proof.
  pose proof (home_without_pin_reports 17 16 7 (-60) None motor_unhomed
    (snd (BlinkLed.setSpeed 300 blink_unhomed))) as H.
  destruct H as (H1 & _ & H2 & _).
  - apply reach_init.
  - apply (reach_call _ BlinkLed_call (SetSpeed 300)), reach_init.
  - by split.
Defined.

(** C7 as stated fails on the script's controller built without its
    homing pin: neither method ends in an error, and the caller gets what
    it gets from a successful homing of the controller that has the pin. *)
Lemma home_without_pin_returns_normally :
  ¬ (∃ e, fst (StepperMotor.homeMotorReverse (-60) motor_unhomed) = Raise e) ∧
  ¬ (∃ e, fst (StepperMotor.homeMotorForward 60 motor_unhomed) = Raise e) ∧
  ¬ (∃ e, fst (BlinkLed.homeMotorReverse (-60) blink_unhomed) = Raise e) ∧
  ¬ (∃ e, fst (BlinkLed.homeMotorForward 60 blink_unhomed) = Raise e) ∧
  fst (StepperMotor.homeMotorReverse (-60) motor_unhomed) =
    fst (StepperMotor.homeMotorReverse (-60) motor0) ∧
  fst (StepperMotor.homeMotorForward 60 motor_unhomed) =
    fst (StepperMotor.homeMotorForward 60 motor0) ∧
  fst (BlinkLed.homeMotorReverse (-60) blink_unhomed) =
    fst (BlinkLed.homeMotorReverse (-60) blink0) ∧
  fst (BlinkLed.homeMotorForward 60 blink_unhomed) =
    fst (BlinkLed.homeMotorForward 60 blink0).
Proof.
  repeat split; try reflexivity; intros [e He]; by vm_compute in He.
Qed.

(** C8: with a homing pin configured, [homeMotorReverse(speed)] prints,
    calls [setSpeed(speed)] and, if that returns, sets [position] to 0; if
    [setSpeed] raises, the exception goes on to the caller and [position]
    is not reset.  [homeMotorForward] sets [position] to 0 and makes no
    hardware call at all. *)
Theorem home_with_pin (w : world) (speed : Z) (hp : value) :
  obj w !! "homingPin" = Some hp → is_None hp = false →
  let announced := World (obj w) (hw w) (console w ++ [MsgHoming hp]) in
  StepperMotor.homeMotorReverse speed w =
    match StepperMotor.setSpeed speed announced with
    | (Return _, w1) =>
        (Return (),
         World (<["position" := VInt 0]> (obj w1)) (hw w1)
           (console w1 ++ [MsgHomed]))
    | (Raise e, w1) => (Raise e, w1)
    end ∧
  BlinkLed.homeMotorReverse speed w =
    match BlinkLed.setSpeed speed announced with
    | (Return _, w1) =>
        (Return (),
         World (<["position" := VInt 0]> (obj w1)) (hw w1)
           (console w1 ++ [MsgHomed]))
    | (Raise e, w1) => (Raise e, w1)
    end ∧
  StepperMotor.homeMotorForward speed w =
    (Return (),
     World (<["position" := VInt 0]> (obj w)) (hw w)
       (console w ++ [MsgHoming hp; MsgHomed])) ∧
  BlinkLed.homeMotorForward speed w =
    (Return (),
     World (<["position" := VInt 0]> (obj w)) (hw w)
       (console w ++ [MsgHoming hp; MsgHomed])).
Proof.
  intros Hhp Hsome announced. subst announced. repeat split.
  - by apply StepperMotor_homeMotorReverse_with_pin.
  - by apply BlinkLed_homeMotorReverse_with_pin.
  - by apply StepperMotor_homeMotorForward_with_pin.
  - by apply BlinkLed_homeMotorForward_with_pin.
Qed.

Lemma home_with_pin_witness :
  StepperMotor.homeMotorReverse (-60) motor0 =
    match
      StepperMotor.setSpeed (-60)
        (World (obj motor0) (hw motor0) (console motor0 ++ [MsgHoming (VInt 4)]))
    with
    | (Return _, w1) =>
        (Return (),
         World (<["position" := VInt 0]> (obj w1)) (hw w1)
           (console w1 ++ [MsgHomed]))
    | (Raise e, w1) => (Raise e, w1)
    end ∧
  BlinkLed.homeMotorForward 60 blink0 =
    (Return (),
     World (<["position" := VInt 0]> (obj blink0)) (hw blink0)
       (console blink0 ++ [MsgHoming (VInt 4); MsgHomed])).
Proof.
  split.
  - apply (home_with_pin motor0 (-60) (VInt 4)); reflexivity.
  - apply (home_with_pin blink0 60 (VInt 4)); reflexivity.
Defined.

Example homeMotorReverse_default_homes :
  fst (StepperMotor.homeMotorReverse StepperMotor.homeMotorReverse_default motor0) =
    Return () ∧
  obj (snd (StepperMotor.homeMotorReverse StepperMotor.homeMotorReverse_default motor0))
    !! "position" = Some (VInt 0) ∧
  obj (snd (StepperMotor.homeMotorReverse StepperMotor.homeMotorReverse_default motor0))
    !! "currentSpeed" = Some (VInt (-60)).
Proof. by vm_compute. Qed.

Example homeMotorReverse_too_fast_exits :
  fst (BlinkLed.homeMotorReverse 700 blink0) = Raise (SystemExit 1) ∧
  obj (snd (BlinkLed.homeMotorReverse 700 blink0)) !! "position" = None ∧
  hw (snd (BlinkLed.homeMotorReverse 700 blink0)) = hw blink0.
Proof. by vm_compute. Qed.

(** * Direction *)

(** C9: [reverseDirections] negates [direction] and touches nothing else
    (no hardware call, no other attribute); two calls give the attributes
    and the hardware back as they were, so that a move after them has the
    outcome, the attributes (the position among them) and the hardware
    calls of the same move without them. *)
Theorem reverseDirections_twice (w : world) (d steps : Z) :
  obj w !! "direction" = Some (VInt d) →
  let flipped :=
    World (<["direction" := VInt (- d)]> (obj w)) (hw w)
      (console w ++ [MsgDirectionReversed]) in
  let back :=
    World (obj w) (hw w)
      (console w ++ [MsgDirectionReversed; MsgDirectionReversed]) in
  StepperMotor.reverseDirections w = (Return (), flipped) ∧
  (StepperMotor.reverseDirections;; StepperMotor.reverseDirections) w =
    (Return (), back) ∧
  same_motion (StepperMotor.moveSteps steps back) (StepperMotor.moveSteps steps w) ∧
  BlinkLed.reverseDirections w = (Return (), flipped) ∧
  (BlinkLed.reverseDirections;; BlinkLed.reverseDirections) w =
    (Return (), back) ∧
  same_motion (BlinkLed.step steps back) (BlinkLed.step steps w).
Proof.
  intros Hd flipped back. subst flipped back.
  assert (<["direction" := VInt (- - d)]> (<["direction" := VInt (- d)]> (obj w))
          = obj w) as Hback.
  { rewrite insert_insert_eq, Z.opp_involutive. by apply insert_id. }
  repeat split.
  - by apply StepperMotor_reverseDirections_eq.
  - rewrite bind_eq, (StepperMotor_reverseDirections_eq w d) by done.
    rewrite (StepperMotor_reverseDirections_eq _ (- d))
      by (cbn; apply lookup_insert_eq).
    cbn [obj hw console]. by rewrite Hback, <- app_assoc.
  - destruct w as [o h c]. apply blind_StepperMotor_moveSteps.
  - destruct w as [o h c]. apply blind_StepperMotor_moveSteps.
  - destruct w as [o h c]. apply blind_StepperMotor_moveSteps.
  - by apply BlinkLed_reverseDirections_eq.
  - rewrite bind_eq, (BlinkLed_reverseDirections_eq w d) by done.
    rewrite (BlinkLed_reverseDirections_eq _ (- d))
      by (cbn; apply lookup_insert_eq).
    cbn [obj hw console]. by rewrite Hback, <- app_assoc.
  - destruct w as [o h c]. apply blind_BlinkLed_step.
  - destruct w as [o h c]. apply blind_BlinkLed_step.
  - destruct w as [o h c]. apply blind_BlinkLed_step.
Qed.

Lemma reverseDirections_twice_witness :
  (BlinkLed.reverseDirections;; BlinkLed.reverseDirections) blink0 =
    (Return (),
     World (obj blink0) (hw blink0)
       (console blink0 ++ [MsgDirectionReversed; MsgDirectionReversed])).
Proof.
  apply (reverseDirections_twice blink0 1 5). reflexivity.
Defined.

(** * Enable and disable *)

Lemma drives_pin_intro (m : M unit) (w : world) (p level : Z) (tr : list hw_event) (msg : message) :
  (∀ w', obj w' = obj w →
     m w' = (Return (), World (obj w') (hw w' ++ tr) (console w' ++ [msg]))) →
  (∀ q, pin_level q tr = if q =? p then Some level else None) →
  (∀ t q, pin_config q ((t ++ tr) ++ tr) = pin_config q (t ++ tr)) →
  drives_pin m w p level.
Proof.
  intros Hm Hl Hc. unfold drives_pin. cbv zeta.
  rewrite (Hm w) by done. cbn [fst snd obj hw].
  rewrite (Hm (World _ _ _)) by done. cbn [fst snd obj hw].
  repeat split.
  - by rewrite pin_level_app, Hl, Z.eqb_refl.
  - intros q Hq. rewrite pin_level_app, Hl.
    by replace (q =? p) with false by (symmetry; by apply Z.eqb_neq).
  - intros q. rewrite !pin_level_app, Hl. by destruct (q =? p).
  - intros q. apply Hc.
Qed.

(** C10, as the code has it: [enableMotor] drives the disable pin to 0
    and [disableMotor] drives it to 1; neither writes any attribute (the
    object has no [enabled] flag), and a second call changes neither the
    attributes nor the level or configuration of any pin. *)
Theorem enable_disable_drive_pin (wm wb : world) (p : Z) :
  obj wm !! "disablePin" = Some (VInt p) →
  obj wb !! "disablePin" = Some (VPin p) →
  drives_pin StepperMotor.enableMotor wm p 0 ∧
  drives_pin StepperMotor.disableMotor wm p 1 ∧
  drives_pin BlinkLed.enableMotor wb p 0 ∧
  drives_pin BlinkLed.disableMotor wb p 1.
Proof.
  intros Hm Hb.
  assert (∀ q l, pin_level q [PinInit p (Some OUT) None; PinValue p l] =
                 if q =? p then Some (level_of_arg l) else None) as Hl2.
  { intros q l. cbn. rewrite (Z.eqb_sym p q). by destruct (q =? p). }
  assert (∀ l t q,
    pin_config q ((t ++ [PinInit p (Some OUT) None; PinValue p l]) ++
                  [PinInit p (Some OUT) None; PinValue p l]) =
    pin_config q (t ++ [PinInit p (Some OUT) None; PinValue p l])) as Hc2.
  { intros l t q. rewrite !pin_config_app. cbn. by destruct (p =? q). }
  split; [|split; [|split]].
  - apply drives_pin_intro with
      (tr := [PinInit p (Some OUT) None; PinValue p 0]) (msg := MsgMotorEnabled);
      [|intros q; apply (Hl2 q 0)|apply Hc2].
    intros w' Hw'. apply StepperMotor_enableMotor_eq. by rewrite Hw'.
  - apply drives_pin_intro with
      (tr := [PinInit p (Some OUT) None; PinValue p 1]) (msg := MsgMotorDisabled);
      [|intros q; apply (Hl2 q 1)|apply Hc2].
    intros w' Hw'. apply StepperMotor_disableMotor_eq. by rewrite Hw'.
  - apply drives_pin_intro with (tr := [PinValue p 0]) (msg := MsgMotorEnabled).
    + intros w' Hw'. apply BlinkLed_enableMotor_eq. by rewrite Hw'.
    + intros q. cbn. rewrite (Z.eqb_sym p q). by destruct (q =? p).
    + intros t q. by rewrite !pin_config_app.
  - apply drives_pin_intro with
      (tr := [PinInit p (Some OUT) None; PinValue p 1]) (msg := MsgMotorDisabled);
      [|intros q; apply (Hl2 q 1)|apply Hc2].
    intros w' Hw'. apply BlinkLed_disableMotor_eq. by rewrite Hw'.
Qed.

Lemma enable_disable_drive_pin_witness :
  drives_pin StepperMotor.enableMotor motor0 7 0 ∧
  drives_pin BlinkLed.disableMotor blink0 7 1.
Proof.
  destruct (enable_disable_drive_pin motor0 blink0 7) as (H1 & _ & _ & H2);
    [reflexivity | reflexivity | by split].
Defined.

(** C10 as stated fails on the script's controller: after [enableMotor],
    as after [disableMotor], the object has no [enabled] attribute, so no
    flag has been set to true or to false. *)
Lemma enableMotor_sets_no_flag :
  ¬ (∃ v, obj (snd (StepperMotor.enableMotor motor0)) !! "enabled" = Some v) ∧
  ¬ (∃ v, obj (snd (StepperMotor.disableMotor motor0)) !! "enabled" = Some v) ∧
  ¬ (∃ v, obj (snd (BlinkLed.enableMotor blink0)) !! "enabled" = Some v) ∧
  ¬ (∃ v, obj (snd (BlinkLed.disableMotor blink0)) !! "enabled" = Some v).
Proof.
  repeat split; intros [v Hv]; by vm_compute in Hv.
Qed.

(** * Further properties of the two classes *)

(** In every state a controller goes through, the pins, the homing pin
    and [MAX_RPM] read as [__init__] set them, [stepDivider] is one of
    1, 2, 4, 8, 16, [direction] is 1 or -1, [position] is unset or an
    integer, and there is no [enabled] attribute. *)
Theorem controller_invariant (sp dp xp : Z) (hp cp : option Z) (wm wb : world) :
  reachable (StepperMotor_new hp sp dp xp) StepperMotor_call wm →
  reachable (BlinkLed_new sp dp xp hp cp) BlinkLed_call wb →
  configured VInt sp dp xp hp (obj wm) ∧ configured VPin sp dp xp hp (obj wb).
Proof.
  intros Hm Hb. split.
  - by apply StepperMotor_configured.
  - by apply (BlinkLed_configured sp dp xp hp cp).
Qed.

Lemma controller_invariant_witness :
  configured VInt 17 16 7 (Some 4) (obj (snd (StepperMotor.reverseDirections motor0))) ∧
  configured VPin 17 16 7 (Some 4) (obj (snd (BlinkLed.setMicroStep 16 blink0))).
Proof.
  apply (controller_invariant 17 16 7 (Some 4) None).
  - apply (reach_call _ StepperMotor_call Reverse), reach_init.
  - apply (reach_call _ BlinkLed_call (SetMicroStep 16)), reach_init.
Defined.

Lemma pulse_count_app sp t1 t2 :
  pulse_count sp (t1 ++ t2) = (pulse_count sp t1 + pulse_count sp t2)%nat.
Proof. unfold pulse_count. by rewrite List.filter_app, length_app. Qed.

Lemma pulse_count_pulses n sp : pulse_count sp (pulses n sp) = n.
Proof.
  induction n as [|n IH]; [done|].
  cbn [pulses]. rewrite pulse_count_app, IH.
  unfold pulse_count. cbn. by rewrite Z.eqb_refl.
Qed.

Lemma pulse_count_bare_pulses n sp : pulse_count sp (bare_pulses n sp) = n.
Proof.
  induction n as [|n IH]; [done|].
  cbn [bare_pulses]. rewrite pulse_count_app, IH.
  unfold pulse_count. cbn. by rewrite Z.eqb_refl.
Qed.

(** Once [position] is set (by homing), [step(steps)] of src/BlinkLed.py
    returns, adds [steps * direction] to [position], writes no other
    attribute and emits [abs(steps)] pulses on the step pin (the direction
    pin being another pin); [step(0)] leaves the position as it is. *)
Theorem BlinkLed_step_moves (w : world) (steps sp dp dir pos : Z) :
  obj w !! "stepPin" = Some (VPin sp) →
  obj w !! "dirPin" = Some (VPin dp) →
  obj w !! "direction" = Some (VInt dir) →
  obj w !! "position" = Some (VInt pos) →
  sp ≠ dp →
  ∃ tr,
    BlinkLed.step steps w =
      (Return (),
       World (<["position" := VInt (pos + steps * dir)]> (obj w)) (hw w ++ tr)
         (console w ++ [MsgMoved steps (VInt (pos + steps * dir))])) ∧
    pulse_count sp tr = Z.to_nat (Z.abs steps) ∧
    (steps = 0 → <["position" := VInt (pos + steps * dir)]> (obj w) = obj w).
Proof.
  intros Hsp Hdp Hdir Hpos Hne. exists (BlinkLed_step_trace steps dir dp sp).
  split; [by apply BlinkLed_step_positioned|]. split.
  - unfold BlinkLed_step_trace.
    assert ((dp =? sp) = false) as Hdps by (apply Z.eqb_neq; congruence).
    destruct (0 <? steps) eqn:Hp; destruct (steps <? 0) eqn:Hn; try lia;
      rewrite !pulse_count_app, ?pulse_count_pulses, ?pulse_count_bare_pulses;
      unfold pulse_count; cbn; rewrite ?Hdps; cbn; lia.
  - intros ->. rewrite Z.mul_0_l, Z.add_0_r. by apply insert_id.
Qed.

Lemma BlinkLed_step_moves_witness :
  ∃ tr,
    BlinkLed.step (-3) (snd (BlinkLed.homeMotorForward 60 blink0)) =
      (Return (),
       World
         (<["position" := VInt (0 + (-3) * 1)]>
            (obj (snd (BlinkLed.homeMotorForward 60 blink0))))
         (hw (snd (BlinkLed.homeMotorForward 60 blink0)) ++ tr)
         (console (snd (BlinkLed.homeMotorForward 60 blink0)) ++
          [MsgMoved (-3) (VInt (0 + (-3) * 1))])) ∧
    pulse_count 17 tr = Z.to_nat (Z.abs (-3)) ∧
    (-3 = 0 →
     <["position" := VInt (0 + (-3) * 1)]>
       (obj (snd (BlinkLed.homeMotorForward 60 blink0))) =
     obj (snd (BlinkLed.homeMotorForward 60 blink0))).
Proof.
  apply (BlinkLed_step_moves (snd (BlinkLed.homeMotorForward 60 blink0))
           (-3) 17 16 1 0); try reflexivity. lia.
Defined.

(** [step(N)] followed by [step(-N)], with [direction] unchanged, brings
    [position] back to where it was. *)
Theorem BlinkLed_step_there_and_back (w : world) (n sp dp dir pos : Z) :
  obj w !! "stepPin" = Some (VPin sp) →
  obj w !! "dirPin" = Some (VPin dp) →
  obj w !! "direction" = Some (VInt dir) →
  obj w !! "position" = Some (VInt pos) →
  fst ((BlinkLed.step n;; BlinkLed.step (- n)) w) = Return () ∧
  obj (snd ((BlinkLed.step n;; BlinkLed.step (- n)) w)) = obj w.
Proof.
  intros Hsp Hdp Hdir Hpos. rewrite bind_eq.
  rewrite (BlinkLed_step_positioned w n sp dp dir pos) by done.
  rewrite (BlinkLed_step_positioned _ (- n) sp dp dir (pos + n * dir))
    by (cbn; by simplify_map_eq).
  cbn [fst snd obj]. split; [done|].
  rewrite insert_insert_eq.
  replace (pos + n * dir + - n * dir) with pos by lia. by apply insert_id.
Qed.

Lemma BlinkLed_step_there_and_back_witness :
  fst ((BlinkLed.step 5;; BlinkLed.step (- 5))
         (snd (BlinkLed.homeMotorForward 60 blink0))) = Return () ∧
  obj (snd ((BlinkLed.step 5;; BlinkLed.step (- 5))
              (snd (BlinkLed.homeMotorForward 60 blink0)))) =
  obj (snd (BlinkLed.homeMotorForward 60 blink0)).
Proof.
  apply (BlinkLed_step_there_and_back _ 5 17 16 1 0); reflexivity.
Defined.

(** The script at the end of src/BlinkLed.py runs to its end: the
    controller is enabled, the divider is 8, the speed 300 rpm is accepted,
    and the step pin is given a PWM of 8000 Hz, half of the 16000 Hz that
    600 rpm would be. *)
Theorem BlinkLed_main_runs :
  fst (BlinkLed.main fresh) = Return () ∧
  hw (snd (BlinkLed.main fresh)) =
    [PinInit 17 (Some OUT) None; PinValue 17 0;
     PinInit 16 (Some OUT) None; PinValue 16 1;
     PinInit 7 (Some OUT) None; PinValue 7 1;
     PinInit 4 (Some IN) (Some PULL_UP);
     PinValue 7 0;
     PinInit 17 None None; PwmInit 17 (Some 32768); PwmFreq 17 (VInt 8000);
     PinValue 16 0] ∧
  obj (snd (BlinkLed.main fresh)) !! "stepDivider" = Some (VInt 8) ∧
  obj (snd (BlinkLed.main fresh)) !! "currentSpeed" = Some (VInt 300) ∧
  (frequency 300 8 == 8000)%Q ∧ (frequency 600 8 == 16000)%Q.
Proof. by vm_compute. Qed.

(** Without one of the three pins [__init__] prints its error and ends
    the process, having set no attribute and touched no pin. *)
Theorem init_without_pin_exits
    (homingPin stepPin dirPin disablePin counterPin : option Z) :
  stepPin = None ∨ dirPin = None ∨ disablePin = None →
  StepperMotor.__init__ homingPin stepPin dirPin disablePin fresh =
    (Raise (SystemExit 1), World ∅ [] [MsgPinsNotDeclared]) ∧
  BlinkLed.__init__ stepPin dirPin disablePin homingPin counterPin fresh =
    (Raise (SystemExit 1), World ∅ [] [MsgPinsNotDeclared]).
Proof.
  intros H. split.
  - by apply StepperMotor_init_missing_pin.
  - by apply BlinkLed_init_missing_pin.
Qed.

Lemma init_without_pin_exits_witness :
  StepperMotor.__init__ (Some 4) (Some 17) None (Some 7) fresh =
    (Raise (SystemExit 1), World ∅ [] [MsgPinsNotDeclared]).
Proof.
  apply (init_without_pin_exits (Some 4) (Some 17) None (Some 7) None).
  right. by left.
Defined.

(** * How every call ends *)





(** * The speed on record *)

Lemma StepperMotor_speed_step sp dp xp hp c w :
  configured VInt sp dp xp hp (obj w) →
  speed_within_limit (obj w) →
  speed_within_limit (obj (snd (StepperMotor_call c w))).
Proof.
  intros [H1 H2 H3 H4 H5 H6 (d & Hd & Hv) (s & Hs & Hpm) Hp] Hlim.
  pose proof (valid_microstep_pos d Hv) as Hpos.
  assert (∀ w' rpm, obj w' = obj w →
    speed_within_limit (obj (snd (StepperMotor.setSpeed rpm w')))) as Hset.
  { intros w' rpm Hw'. destruct (Z.le_gt_cases rpm 600).
    - rewrite (StepperMotor_setSpeed_accepted w' rpm d 600 sp dp s)
        by (rewrite ?Hw'; done).
      right. exists rpm. cbn. by rewrite lookup_insert_eq.
    - rewrite (StepperMotor_setSpeed_rejected w' rpm d 600)
        by (rewrite ?Hw'; done).
      unfold speed_within_limit. cbn. rewrite lookup_insert_ne by done.
      by rewrite Hw'. }
  destruct c as [| | | | |rpm|speed|];
    try (unfold speed_within_limit;
         rewrite (StepperMotor_call_modifies _ w "currentSpeed") by not_written;
         exact Hlim).
  - by apply Hset.
  - cbn [StepperMotor_call]. destruct (is_None_arg hp) as [Hn|Hn].
    + rewrite (StepperMotor_homeMotorReverse_with_pin w speed (arg hp)) by done.
      specialize (Hset (World (obj w) (hw w) (console w ++ [MsgHoming (arg hp)]))
                    speed eq_refl).
      destruct (StepperMotor.setSpeed speed _) as [[[]|e] w1]; [|done].
      unfold speed_within_limit in *. cbn [snd obj] in *.
      by rewrite lookup_insert_ne.
    + rewrite Hn in H4. by rewrite StepperMotor_homeMotorReverse_no_pin.
Qed.

Lemma BlinkLed_speed_step sp dp xp hp c w :
  configured VPin sp dp xp hp (obj w) →
  speed_within_limit (obj w) →
  speed_within_limit (obj (snd (BlinkLed_call c w))).
Proof.
  intros [H1 H2 H3 H4 H5 H6 (d & Hd & Hv) (s & Hs & Hpm) Hp] Hlim.
  pose proof (valid_microstep_pos d Hv) as Hpos.
  assert (∀ w' rpm, obj w' = obj w →
    speed_within_limit (obj (snd (BlinkLed.setSpeed rpm w')))) as Hset.
  { intros w' rpm Hw'. destruct (Z.le_gt_cases rpm 600).
    - rewrite (BlinkLed_setSpeed_accepted w' rpm d 600 sp dp s)
        by (rewrite ?Hw'; done).
      right. exists rpm. cbn. by rewrite lookup_insert_eq.
    - rewrite (BlinkLed_setSpeed_rejected w' rpm d 600)
        by (rewrite ?Hw'; done).
      unfold speed_within_limit. cbn. rewrite lookup_insert_ne by done.
      by rewrite Hw'. }
  destruct c as [| | | | |rpm|speed|];
    try (unfold speed_within_limit;
         rewrite (BlinkLed_call_modifies _ w "currentSpeed") by not_written;
         exact Hlim).
  - by apply Hset.
  - cbn [BlinkLed_call]. destruct (is_None_arg hp) as [Hn|Hn].
    + rewrite (BlinkLed_homeMotorReverse_with_pin w speed (arg hp)) by done.
      specialize (Hset (World (obj w) (hw w) (console w ++ [MsgHoming (arg hp)]))
                    speed eq_refl).
      destruct (BlinkLed.setSpeed speed _) as [[[]|e] w1]; [|done].
      unfold speed_within_limit in *. cbn [snd obj] in *.
      by rewrite lookup_insert_ne.
    + rewrite Hn in H4. by rewrite BlinkLed_homeMotorReverse_no_pin.
Qed.

(** Whatever is called on a controller, the speed it has on record never
    exceeds 600 rpm: [currentSpeed] is [None] until a [setSpeed] is
    accepted, and a rejected [setSpeed] leaves it as it was. *)
Theorem recorded_speed_within_limit (sp dp xp : Z) (hp cp : option Z) (wm wb : world) :
  reachable (StepperMotor_new hp sp dp xp) StepperMotor_call wm →
  reachable (BlinkLed_new sp dp xp hp cp) BlinkLed_call wb →
  speed_within_limit (obj wm) ∧ speed_within_limit (obj wb).
Proof.
  intros Hm Hb. split.
  - induction Hm as [|c w Hw IH].
    + left. unfold StepperMotor_new. by rewrite StepperMotor_init_eq.
    + apply (StepperMotor_speed_step sp dp xp hp); [|done].
      by apply StepperMotor_configured.
  - induction Hb as [|c w Hw IH].
    + left. unfold BlinkLed_new. by rewrite BlinkLed_init_eq.
    + apply (BlinkLed_speed_step sp dp xp hp); [|done].
      by apply (BlinkLed_configured sp dp xp hp cp).
Qed.

Lemma recorded_speed_within_limit_witness :
  speed_within_limit (obj (snd (StepperMotor.setSpeed 700 (snd (StepperMotor.setSpeed 450 motor0))))) ∧
  speed_within_limit (obj (snd (BlinkLed.homeMotorReverse (-60) blink0))).
Proof.
  apply (recorded_speed_within_limit 17 16 7 (Some 4) None).
  - apply (reach_call _ StepperMotor_call (SetSpeed 700)),
      (reach_call _ StepperMotor_call (SetSpeed 450)), reach_init.
  - apply (reach_call _ BlinkLed_call (HomeReverse (-60))), reach_init.
Defined.

(** * What the moves do to the pins *)

Lemma pin_level_pulses_other n sp q : q ≠ sp → pin_level q (pulses n sp) = None.
Proof.
  intros Hq. assert ((sp =? q) = false) as Hsq by (apply Z.eqb_neq; congruence).
  induction n as [|n IH]; [done|].
  cbn [pulses]. rewrite pin_level_app, IH. cbn. by rewrite Hsq.
Qed.

Lemma pin_level_bare_pulses_other n sp q :
  q ≠ sp → pin_level q (bare_pulses n sp) = None.
Proof.
  intros Hq. assert ((sp =? q) = false) as Hsq by (apply Z.eqb_neq; congruence).
  induction n as [|n IH]; [done|].
  cbn [bare_pulses]. rewrite pin_level_app, IH. cbn. by rewrite Hsq.
Qed.

Lemma StepperMotor_moveSteps_trace w steps sp :
  obj w !! "stepPin" = Some (VInt sp) →
  obj (snd (StepperMotor.moveSteps steps w)) = obj w ∧
  hw (snd (StepperMotor.moveSteps steps w)) =
    hw w ++ pulses (Z.to_nat (Z.abs steps)) sp ∧
  fst (StepperMotor.moveSteps steps w) =
    match obj w !! "position" with
    | Some _ => Return ()
    | None => Raise (AttributeError "position")
    end.
Proof.
  intros Hsp. destruct (obj w !! "position") as [pos|] eqn:Hpos.
  - by rewrite (StepperMotor_moveSteps_positioned w steps sp pos).
  - by rewrite (StepperMotor_moveSteps_unpositioned w steps sp).
Qed.

(** [moveSteps] of src/StepperMotor.py looks at the size of [steps]
    only: it writes no attribute, puts [abs(steps)] pulses on the step
    pin and touches no other pin, the direction pin included, so that
    [moveSteps(-N)] does to the motor exactly what [moveSteps(N)]
    does. *)
Theorem StepperMotor_moveSteps_ignores_sign
    (sp dp xp steps : Z) (hp : option Z) (w : world) :
  reachable (StepperMotor_new hp sp dp xp) StepperMotor_call w →
  let r := StepperMotor.moveSteps steps w in
  obj (snd r) = obj w ∧
  hw (snd r) = hw w ++ pulses (Z.to_nat (Z.abs steps)) sp ∧
  pulse_count sp (pulses (Z.to_nat (Z.abs steps)) sp) = Z.to_nat (Z.abs steps) ∧
  (∀ q, q ≠ sp → pin_level q (hw (snd r)) = pin_level q (hw w)) ∧
  same_motion r (StepperMotor.moveSteps (- steps) w).
Proof.
  intros Hw r. subst r.
  apply StepperMotor_configured in Hw as [Hsp _ _ _ _ _ _ _ _].
  destruct (StepperMotor_moveSteps_trace w steps sp Hsp) as (Ho & Hh & Hr).
  destruct (StepperMotor_moveSteps_trace w (- steps) sp Hsp) as (Ho' & Hh' & Hr').
  rewrite Z.abs_opp in Hh'.
  split; [done|]. split; [done|]. split; [apply pulse_count_pulses|]. split.
  - intros q Hq. by rewrite Hh, pin_level_app, pin_level_pulses_other.
  - unfold same_motion. by rewrite Ho, Ho', Hh, Hh', Hr, Hr'.
Qed.

Lemma StepperMotor_moveSteps_ignores_sign_witness :
  same_motion (StepperMotor.moveSteps 7 motor0) (StepperMotor.moveSteps (- 7) motor0).
Proof.
  apply (StepperMotor_moveSteps_ignores_sign 17 16 7 7 (Some 4) motor0).
  apply reach_init.
Defined.

Lemma BlinkLed_step_trace_eq w steps sp dp dir :
  obj w !! "stepPin" = Some (VPin sp) →
  obj w !! "dirPin" = Some (VPin dp) →
  obj w !! "direction" = Some (VInt dir) →
  (obj w !! "position" = None ∨ ∃ p, obj w !! "position" = Some (VInt p)) →
  hw (snd (BlinkLed.step steps w)) = hw w ++ BlinkLed_step_trace steps dir dp sp.
Proof.
  intros Hsp Hdp Hdir [Hpos|[pos Hpos]].
  - by rewrite (BlinkLed_step_unpositioned w steps sp dp dir).
  - by rewrite (BlinkLed_step_positioned w steps sp dp dir pos).
Qed.

Lemma pin_level_step_trace steps dir dp sp :
  sp ≠ dp → steps ≠ 0 → dir ≠ 0 →
  pin_level dp (BlinkLed_step_trace steps dir dp sp) = Some 1.
Proof.
  intros Hne Hsteps Hdir. unfold BlinkLed_step_trace.
  assert (dp ≠ sp) as Hne' by congruence.
  assert ((dir =? 0) = false) as Hd by (by apply Z.eqb_neq).
  assert ((- dir =? 0) = false) as Hd' by (apply Z.eqb_neq; lia).
  destruct (0 <? steps) eqn:Hp; destruct (steps <? 0) eqn:Hn; try lia.
  - rewrite app_nil_r, pin_level_app, pin_level_pulses_other by done.
    cbn. unfold level_of_arg. by rewrite Z.eqb_refl, Hd.
  - rewrite app_nil_l, pin_level_app, pin_level_bare_pulses_other by done.
    cbn. unfold level_of_arg. by rewrite Z.eqb_refl, Hd'.
Qed.

(** [step] of src/BlinkLed.py writes [direction] to the direction pin
    when it steps forward and [-direction] when it steps backward; both
    are non-zero, so the pin is driven high either way: after any
    [step(steps)] with [steps != 0] the direction pin is at level 1,
    whatever the sign of [steps] and whatever [direction] is. *)
Theorem BlinkLed_step_direction_pin_high
    (sp dp xp steps : Z) (hp cp : option Z) (w : world) :
  reachable (BlinkLed_new sp dp xp hp cp) BlinkLed_call w →
  sp ≠ dp → steps ≠ 0 →
  pin_level dp (hw (snd (BlinkLed.step steps w))) = Some 1 ∧
  pin_level dp (hw (snd (BlinkLed.step (- steps) w))) = Some 1.
Proof.
  intros Hw Hne Hsteps.
  apply (BlinkLed_configured sp dp xp hp cp) in Hw
    as [Hsp Hdp _ _ _ _ _ (s & Hs & Hpm) Hpos].
  assert (s ≠ 0) as Hs0 by lia.
  split.
  - rewrite (BlinkLed_step_trace_eq w steps sp dp s) by done.
    rewrite pin_level_app. by rewrite pin_level_step_trace.
  - rewrite (BlinkLed_step_trace_eq w (- steps) sp dp s) by done.
    rewrite pin_level_app. rewrite pin_level_step_trace; [done|done|lia|done].
Qed.

Lemma BlinkLed_step_direction_pin_high_witness :
  pin_level 16 (hw (snd (BlinkLed.step 4 blink0))) = Some 1 ∧
  pin_level 16 (hw (snd (BlinkLed.step (- 4) blink0))) = Some 1.
Proof.
  apply (BlinkLed_step_direction_pin_high 17 16 7 4 (Some 4) None blink0).
  - apply reach_init.
  - lia.
  - lia.
Defined.

(** * An accepted speed *)









(** * Homing a controller that has its pin *)



(** * Moves add up *)

(** In src/BlinkLed.py, with [position] set, [step(a)] followed by
    [step(b)] leaves every attribute as [step(a + b)] does: the position
    is the signed sum of the moves, though the pulses emitted are
    [abs(a) + abs(b)]. *)
Theorem BlinkLed_step_adds (w : world) (a b sp dp dir pos : Z) :
  obj w !! "stepPin" = Some (VPin sp) →
  obj w !! "dirPin" = Some (VPin dp) →
  obj w !! "direction" = Some (VInt dir) →
  obj w !! "position" = Some (VInt pos) →
  sp ≠ dp →
  fst ((BlinkLed.step a;; BlinkLed.step b) w) = Return () ∧
  obj (snd ((BlinkLed.step a;; BlinkLed.step b) w)) =
    obj (snd (BlinkLed.step (a + b) w)) ∧
  obj (snd ((BlinkLed.step a;; BlinkLed.step b) w)) !! "position" =
    Some (VInt (pos + (a + b) * dir)) ∧
  ∃ tr,
    hw (snd ((BlinkLed.step a;; BlinkLed.step b) w)) = hw w ++ tr ∧
    pulse_count sp tr = (Z.to_nat (Z.abs a) + Z.to_nat (Z.abs b))%nat.
Proof.
  intros Hsp Hdp Hdir Hpos Hne. rewrite bind_eq.
  rewrite (BlinkLed_step_positioned w a sp dp dir pos) by done.
  rewrite (BlinkLed_step_positioned _ b sp dp dir (pos + a * dir))
    by (cbn; by simplify_map_eq).
  rewrite (BlinkLed_step_positioned w (a + b) sp dp dir pos) by done.
  cbn [fst snd obj hw]. rewrite insert_insert_eq.
  replace (pos + a * dir + b * dir) with (pos + (a + b) * dir) by lia.
  split; [done|]. split; [done|]. split; [by rewrite lookup_insert_eq|].
  exists (BlinkLed_step_trace a dir dp sp ++ BlinkLed_step_trace b dir dp sp).
  split; [by rewrite app_assoc|].
  assert ((dp =? sp) = false) as Hdps by (apply Z.eqb_neq; congruence).
  assert (∀ n, pulse_count sp (BlinkLed_step_trace n dir dp sp) =
               Z.to_nat (Z.abs n)) as Hcount.
  { intros n. unfold BlinkLed_step_trace.
    destruct (0 <? n) eqn:Hp; destruct (n <? 0) eqn:Hn; try lia;
      rewrite !pulse_count_app, ?pulse_count_pulses, ?pulse_count_bare_pulses;
      unfold pulse_count; cbn; rewrite ?Hdps; cbn; lia. }
  by rewrite pulse_count_app, !Hcount.
Qed.

Lemma BlinkLed_step_adds_witness :
  fst ((BlinkLed.step 5;; BlinkLed.step (-2))
         (snd (BlinkLed.homeMotorForward 60 blink0))) = Return () ∧
  obj (snd ((BlinkLed.step 5;; BlinkLed.step (-2))
              (snd (BlinkLed.homeMotorForward 60 blink0)))) =
    obj (snd (BlinkLed.step (5 + -2) (snd (BlinkLed.homeMotorForward 60 blink0)))).
Proof.
  destruct (BlinkLed_step_adds (snd (BlinkLed.homeMotorForward 60 blink0))
              5 (-2) 17 16 1 0) as (H1 & H2 & _); try reflexivity; [lia|].
  by split.
Defined.

(** * Who drives the disable pin *)

Lemma pin_level_step_trace_other steps dir dp sp q :
  q ≠ sp → q ≠ dp → pin_level q (BlinkLed_step_trace steps dir dp sp) = None.
Proof.
  intros Hsp Hdp. unfold BlinkLed_step_trace.
  assert ((dp =? q) = false) as Hq by (apply Z.eqb_neq; congruence).
  destruct (0 <? steps); destruct (steps <? 0);
    rewrite ?app_nil_r, ?app_nil_l, ?pin_level_app,
      ?pin_level_pulses_other, ?pin_level_bare_pulses_other by done;
    cbn; by rewrite ?Hq.
Qed.

Lemma StepperMotor_call_disable_pin sp dp xp hp c w :
  configured VInt sp dp xp hp (obj w) →
  c ≠ Enable → c ≠ Disable → xp ≠ sp → xp ≠ dp →
  pin_level xp (hw (snd (StepperMotor_call c w))) = pin_level xp (hw w).
Proof.
  intros [H1 H2 H3 H4 H5 H6 (d & Hd & Hv) (s & Hs & Hpm) Hp] He Hdis Hxs Hxd.
  pose proof (valid_microstep_pos d Hv) as Hpos.
  assert ((sp =? xp) = false) as Hsx by (apply Z.eqb_neq; congruence).
  assert ((dp =? xp) = false) as Hdx by (apply Z.eqb_neq; congruence).
  assert (∀ w' rpm, obj w' = obj w →
    pin_level xp (hw (snd (StepperMotor.setSpeed rpm w'))) = pin_level xp (hw w'))
    as Hset.
  { intros w' rpm Hw'. destruct (Z.le_gt_cases rpm 600).
    - rewrite (StepperMotor_setSpeed_accepted w' rpm d 600 sp dp s)
        by (rewrite ?Hw'; done).
      cbn [snd hw]. rewrite pin_level_app. cbn. by rewrite Hdx.
    - by rewrite (StepperMotor_setSpeed_rejected w' rpm d 600)
        by (rewrite ?Hw'; done). }
  destruct c as [| | |d'|steps|rpm|speed|speed]; try done;
    cbn [StepperMotor_call].
  - by rewrite (StepperMotor_reverseDirections_eq w s).
  - destruct (decide (d' ∈ VALID_MICROSTEPS)).
    + by rewrite StepperMotor_setMicroStep_valid.
    + by rewrite StepperMotor_setMicroStep_invalid.
  - destruct (StepperMotor_moveSteps_trace w steps sp H1) as (_ & -> & _).
    by rewrite pin_level_app, pin_level_pulses_other.
  - by apply Hset.
  - destruct (is_None_arg hp) as [Hn|Hn].
    + rewrite (StepperMotor_homeMotorReverse_with_pin w speed (arg hp)) by done.
      specialize (Hset (World (obj w) (hw w) (console w ++ [MsgHoming (arg hp)]))
                    speed eq_refl).
      by destruct (StepperMotor.setSpeed speed _) as [[[]|e] w1].
    + rewrite Hn in H4. by rewrite StepperMotor_homeMotorReverse_no_pin.
  - destruct (is_None_arg hp) as [Hn|Hn].
    + by rewrite (StepperMotor_homeMotorForward_with_pin w speed (arg hp)).
    + rewrite Hn in H4. by rewrite StepperMotor_homeMotorForward_no_pin.
Qed.

Lemma BlinkLed_call_disable_pin sp dp xp hp c w :
  configured VPin sp dp xp hp (obj w) →
  c ≠ Enable → c ≠ Disable → xp ≠ sp → xp ≠ dp →
  pin_level xp (hw (snd (BlinkLed_call c w))) = pin_level xp (hw w).
Proof.
  intros [H1 H2 H3 H4 H5 H6 (d & Hd & Hv) (s & Hs & Hpm) Hp] He Hdis Hxs Hxd.
  pose proof (valid_microstep_pos d Hv) as Hpos.
  assert ((sp =? xp) = false) as Hsx by (apply Z.eqb_neq; congruence).
  assert ((dp =? xp) = false) as Hdx by (apply Z.eqb_neq; congruence).
  assert (∀ w' rpm, obj w' = obj w →
    pin_level xp (hw (snd (BlinkLed.setSpeed rpm w'))) = pin_level xp (hw w'))
    as Hset.
  { intros w' rpm Hw'. destruct (Z.le_gt_cases rpm 600).
    - rewrite (BlinkLed_setSpeed_accepted w' rpm d 600 sp dp s)
        by (rewrite ?Hw'; done).
      cbn [snd hw]. rewrite pin_level_app. cbn. by rewrite Hdx.
    - by rewrite (BlinkLed_setSpeed_rejected w' rpm d 600)
        by (rewrite ?Hw'; done). }
  destruct c as [| | |d'|steps|rpm|speed|speed]; try done;
    cbn [BlinkLed_call].
  - by rewrite (BlinkLed_reverseDirections_eq w s).
  - destruct (decide (d' ∈ VALID_MICROSTEPS)).
    + by rewrite BlinkLed_setMicroStep_valid.
    + by rewrite BlinkLed_setMicroStep_invalid.
  - rewrite (BlinkLed_step_trace_eq w steps sp dp s) by done.
    by rewrite pin_level_app, pin_level_step_trace_other.
  - by apply Hset.
  - destruct (is_None_arg hp) as [Hn|Hn].
    + rewrite (BlinkLed_homeMotorReverse_with_pin w speed (arg hp)) by done.
      specialize (Hset (World (obj w) (hw w) (console w ++ [MsgHoming (arg hp)]))
                    speed eq_refl).
      by destruct (BlinkLed.setSpeed speed _) as [[[]|e] w1].
    + rewrite Hn in H4. by rewrite BlinkLed_homeMotorReverse_no_pin.
  - destruct (is_None_arg hp) as [Hn|Hn].
    + by rewrite (BlinkLed_homeMotorForward_with_pin w speed (arg hp)).
    + rewrite Hn in H4. by rewrite BlinkLed_homeMotorForward_no_pin.
Qed.

(** Only [enableMotor] and [disableMotor] drive the disable pin: with the
    disable pin apart from the step and direction pins, no other call
    changes its level.  A move or a [setSpeed] neither enables the driver
    nor asks whether it is enabled. *)
Theorem disable_pin_driven_by_enable_disable_only
    (sp dp xp : Z) (hp cp : option Z) (c : call) (wm wb : world) :
  reachable (StepperMotor_new hp sp dp xp) StepperMotor_call wm →
  reachable (BlinkLed_new sp dp xp hp cp) BlinkLed_call wb →
  c ≠ Enable → c ≠ Disable → xp ≠ sp → xp ≠ dp →
  pin_level xp (hw (snd (StepperMotor_call c wm))) = pin_level xp (hw wm) ∧
  pin_level xp (hw (snd (BlinkLed_call c wb))) = pin_level xp (hw wb).
Proof.
  intros Hm Hb He Hd Hxs Hxd. split.
  - apply (StepperMotor_call_disable_pin sp dp xp hp); try done.
    by apply StepperMotor_configured.
  - apply (BlinkLed_call_disable_pin sp dp xp hp); try done.
    by apply (BlinkLed_configured sp dp xp hp cp).
Qed.

Lemma disable_pin_driven_by_enable_disable_only_witness :
  pin_level 7 (hw (snd (StepperMotor_call (SetSpeed 300) motor0))) =
    pin_level 7 (hw motor0) ∧
  pin_level 7 (hw (snd (BlinkLed_call (SetSpeed 300) blink0))) =
    pin_level 7 (hw blink0).
Proof.
  apply (disable_pin_driven_by_enable_disable_only 17 16 7 (Some 4) None
           (SetSpeed 300) motor0 blink0);
    try apply reach_init; try discriminate; lia.
Defined.
